(** * normflow: scalar bijective modules with log-Jacobian bookkeeping

    A shallow embedding of [src/nn/scalar/modules_.py].  Every class of the
    file becomes a constructor of [Module_] (or, for the [ModuleList_]
    subclass, the record [DistConvertor_]), and the methods [forward] and
    [backward] become functions that thread the sample [x] and the accumulated
    log-density [log0].

    Numbers are idealised: a torch float is a real number of [R], so that
    [exp], [log], [tanh], [cosh] are the mathematical functions.  Outside the
    domain of a map (where torch yields NaN or Inf) the model follows the
    conventions of the real-number library and no theorem speaks about it.

    A Python exception is the value [None] of the error monad. *)

From Stdlib Require Import String Reals Lra Lia ZArith Bool Arith List.
Import ListNotations.
Local Open Scope R_scope.

(* ================================================================== *)
(** * Part I: definitions *)
(* ================================================================== *)

(** ** The error monad *)

Definition bind {A B : Type} (c : option A) (k : A -> option B) : option B :=
  match c with
  | Some a => k a
  | None => None
  end.

Notation "'let*' x ':=' c 'in' k" := (bind c (fun x => k))
  (at level 10, x pattern, c at level 100, k at level 200).

(** ** Tensors: a shape and the elements in row-major order *)

Record tensor : Type := mkT { shape : list nat; data : list R }.

Fixpoint numel (s : list nat) : nat :=
  match s with
  | [] => 1
  | d :: s' => d * numel s'
  end.

(** A tensor is well formed when it holds as many elements as its shape
    announces. *)
Definition wf (t : tensor) : Prop := length (data t) = numel (shape t).

(** A Python number, or a 0-dimensional tensor. *)
Definition scalar (c : R) : tensor := mkT [] [c].

(** [torch.ones(shape)] *)
Definition ones (s : list nat) : tensor := mkT s (repeat 1 (numel s)).

(** [torch.zeros(shape)] *)
Definition zeros (s : list nat) : tensor := mkT s (repeat 0 (numel s)).

(** An elementwise function of one tensor ([torch.exp(x)], [-2 * x], ...). *)
Definition tmap (f : R -> R) (t : tensor) : tensor :=
  mkT (shape t) (map f (data t)).

(** [x.clone()]: a fresh tensor with the same shape and elements. *)
Definition clone (t : tensor) : tensor := mkT (shape t) (data t).

Fixpoint zipWith (f : R -> R -> R) (l1 l2 : list R) : list R :=
  match l1, l2 with
  | a :: l1', b :: l2' => f a b :: zipWith f l1' l2'
  | _, _ => []
  end.

(** [chunks k m l]: the first [m] consecutive blocks of [k] elements. *)
Fixpoint chunks (k m : nat) (l : list R) : list (list R) :=
  match m with
  | O => []
  | S m' => firstn k l :: chunks k m' (skipn k l)
  end.

(** *** Broadcasting

    Shapes are aligned on their last axis; two sizes are compatible when
    they are equal or one of them is 1. *)

Definition bdim (a b : nat) : option nat :=
  if Nat.eqb a b then Some a
  else if Nat.eqb a 1 then Some b
  else if Nat.eqb b 1 then Some a
  else None.

Fixpoint bshape_rev (r1 r2 : list nat) : option (list nat) :=
  match r1, r2 with
  | [], r => Some r
  | r, [] => Some r
  | a :: r1', b :: r2' =>
      let* d := bdim a b in
      let* r := bshape_rev r1' r2' in
      Some (d :: r)
  end.

Definition broadcast_shapes (s1 s2 : list nat) : option (list nat) :=
  option_map (@rev nat) (bshape_rev (rev s1) (rev s2)).

(** [expand t s d]: the elements [d] of a tensor of shape [s], repeated so
    as to fill the shape [t] that [s] broadcasts to. *)
Fixpoint expand (t s : list nat) (d : list R) : list R :=
  match t with
  | [] => d
  | n :: t' =>
      if Nat.ltb (length s) (length t) then
        concat (repeat (expand t' s d) n)
      else
        match s with
        | [] => d
        | m :: s' =>
            if Nat.eqb m n then
              concat (map (expand t' s') (chunks (numel s') m d))
            else
              concat (repeat (expand t' s' d) n)
        end
  end.

(** A binary elementwise operation with broadcasting; [None] when the shapes
    are incompatible (torch raises a [RuntimeError]). *)
Definition tbin (f : R -> R -> R) (a b : tensor) : option tensor :=
  let* s := broadcast_shapes (shape a) (shape b) in
  Some (mkT s (zipWith f (expand s (shape a) (data a))
                         (expand s (shape b) (data b)))).

Definition tadd : tensor -> tensor -> option tensor := tbin Rplus.
Definition tsub : tensor -> tensor -> option tensor := tbin Rminus.
Definition tmul : tensor -> tensor -> option tensor := tbin Rmult.
Definition tdiv : tensor -> tensor -> option tensor := tbin Rdiv.

(** [x.ravel()]: the same elements as a 1-dimensional tensor. *)
Definition ravel (t : tensor) : tensor := mkT [length (data t)] (data t).

(** [t.reshape(s)]: fails when the number of elements does not fit. *)
Definition reshape (t : tensor) (s : list nat) : option tensor :=
  if Nat.eqb (length (data t)) (numel s) then Some (mkT s (data t)) else None.

Definition Rsum (l : list R) : R := fold_right Rplus 0 l.

(** The sum over every axis but the first: one entry per batch item.  A
    tensor without axes has nothing to sum over. *)
Definition sum_nonbatch (t : tensor) : tensor :=
  match shape t with
  | [] => t
  | b :: rest => mkT [b] (map Rsum (chunks (numel rest) b (data t)))
  end.

(** ** Real functions behind the elementwise maps *)

(** [torch.sgn] on a real tensor. *)
Definition sgn (x : R) : R :=
  match total_order_T x 0 with
  | inleft (left _) => -1
  | inleft (right _) => 0
  | inright _ => 1
  end.

(** [torch.atanh]: the inverse hyperbolic tangent. *)
Definition atanh (x : R) : R := ln ((1 + x) / (1 - x)) / 2.

(** [1/(1 + torch.exp(-x))] *)
Definition expit (x : R) : R := 1 / (1 + exp (- x)).

(** [torch.log(x/(1 - x))] *)
Definition logit (x : R) : R := ln (x / (1 - x)).

(** [torch.log(torch.cosh(x))] *)
Definition lncosh (x : R) : R := ln (cosh x).

(** ** Collaborators that live outside this file *)

(** The mask of [MaskedWrapperNet_]: an object with the three methods
    [split], [purify] and [cat]. *)
Record Mask : Type := mkMask {
  split : tensor -> option (tensor * tensor);
  purify : tensor -> nat -> option tensor;
  cat : tensor -> tensor -> option tensor
}.

(** The spline object returned by [self.make_spline()]: calling it with
    [grad=True] gives the value and the gradient, and so does its
    [backward] for the inverse map. *)
Record Spline : Type := mkSpline {
  spline_call : tensor -> option (tensor * tensor);
  spline_backward : tensor -> option (tensor * tensor)
}.

(** The keyword arguments that reach the constructor of the parent class
    [SplineNet]: [knots_len], the [extra] dictionary built by the
    convertors, and [spline_shape] out of [**kwargs]. *)
Record SplineNet_config : Type := mkConfig {
  knots_len : Z;
  xlim : R * R;
  ylim : R * R;
  extrap : option (list (string * string));
  spline_shape : list nat
}.

(** What a call reads from outside the module instance: the class
    attribute [Module_._propagate_density] and the spline that
    [make_spline] builds for a spline module. *)
Record Env : Type := mkEnv {
  propagate_density : bool;
  make_spline : SplineNet_config -> Spline
}.

(** ** Module instances *)

(** The attribute [sum_density] of an instance: either the method inherited
    from [Module_], or the [lambda x: x] that [MaskedWrapperNet_] installs. *)
Inductive sum_density_attr : Type :=
| ClassReduction
| IdentityLambda.

Record attrs : Type := mkAttrs {
  label : option string;
  sum_density : sum_density_attr
}.

Inductive Module_ : Type :=
| Identity_ (self : attrs)
| Clone_ (self : attrs)
| ScaleNet_ (self : attrs) (logw : R)
| Tanh_ (self : attrs)
| ArcTanh_ (self : attrs)
| Expit_ (self : attrs)
| Logit_ (self : attrs)
| SplineNet_ (self : attrs) (cfg : SplineNet_config)
| SgnBiasNet_ (self : attrs) (w : tensor)
| MaskedWrapperNet_ (self : attrs) (net_ : Module_) (mask : Mask)
    (original_net_sum_density : sum_density_attr).

Definition attrs_of (m : Module_) : attrs :=
  match m with
  | Identity_ a | Clone_ a | ScaleNet_ a _ | Tanh_ a | ArcTanh_ a | Expit_ a
  | Logit_ a | SplineNet_ a _ | SgnBiasNet_ a _ | MaskedWrapperNet_ a _ _ _ => a
  end.

(** [net_.label] and [net_.sum_density] *)
Definition label_of (m : Module_) : option string := label (attrs_of m).
Definition sum_density_of (m : Module_) : sum_density_attr :=
  sum_density (attrs_of m).

(** The assignment [net_.sum_density = f]. *)
Definition set_sum_density (m : Module_) (f : sum_density_attr) : Module_ :=
  let upd a := mkAttrs (label a) f in
  match m with
  | Identity_ a => Identity_ (upd a)
  | Clone_ a => Clone_ (upd a)
  | ScaleNet_ a logw => ScaleNet_ (upd a) logw
  | Tanh_ a => Tanh_ (upd a)
  | ArcTanh_ a => ArcTanh_ (upd a)
  | Expit_ a => Expit_ (upd a)
  | Logit_ a => Logit_ (upd a)
  | SplineNet_ a cfg => SplineNet_ (upd a) cfg
  | SgnBiasNet_ a w => SgnBiasNet_ (upd a) w
  | MaskedWrapperNet_ a n k o => MaskedWrapperNet_ (upd a) n k o
  end.

(** Modelled from the spec: [Module_.__init__(label=None)] of [_core], which
    is not among the sources; it stores the label, and a new instance has the
    class's own [sum_density]. *)
Definition Module___init__ (label : option string) : attrs :=
  mkAttrs label ClassReduction.

(** Modelled from the spec: [Module_.sum_density] of [_core], the
    density-reduction helper that "returns either the array itself
    (per-element mode) or its sum over all axes except the batch axis
    (scalar mode), per the active global mode". *)
Definition Module__sum_density (E : Env) (x : tensor) : tensor :=
  if propagate_density E then x else sum_nonbatch x.

(** The call [self.sum_density(x)], resolved on the instance first. *)
Definition call_sum_density (E : Env) (f : sum_density_attr) (x : tensor)
  : tensor :=
  match f with
  | ClassReduction => Module__sum_density E x
  | IdentityLambda => x
  end.

(** *** Constructors with their default labels *)

Definition Identity___init__ : Module_ :=
  Identity_ (Module___init__ (Some "identity_"%string)).

Definition Clone___init__ : Module_ :=
  Clone_ (Module___init__ (Some "clone_"%string)).

(** [self.logw = torch.nn.Parameter(torch.zeros(1))] *)
Definition ScaleNet___init__ (label : string) : Module_ :=
  ScaleNet_ (Module___init__ (Some label)) 0.

(** [self.w = torch.nn.Parameter(torch.rand( *size)/10)]; [rand] stands for
    the numbers that [torch.rand] drew. *)
Definition SgnBiasNet___init__ (size : list nat) (rand : list R)
  (label : string) : Module_ :=
  SgnBiasNet_ (Module___init__ (Some label))
              (tmap (fun u => u / 10) (mkT size rand)).

Definition SplineNet___init__ (label : string) (cfg : SplineNet_config)
  : Module_ :=
  SplineNet_ (Module___init__ (Some label)) cfg.

(** [PhaseDistConvertor_(knots_len, symmetric, label='phase-dc_', **kwargs)] *)
Definition PhaseDistConvertor___init__ (knots_len : Z) (symmetric : bool)
  (kw_spline_shape : list nat) : Module_ :=
  let cfg :=
    if symmetric
    then mkConfig knots_len (0, PI) (0, PI)
           (Some [("left", "anti")]%string) kw_spline_shape
    else mkConfig knots_len (- PI, PI) (- PI, PI) None kw_spline_shape in
  SplineNet___init__ "phase-dc_" cfg.

(** ** The methods of the elementary modules *)

(** The parameter [logw] is a tensor of shape [1]. *)
Definition logw_tensor (logw : R) : tensor := mkT [1%nat] [logw].

(** [ScaleNet_.log_jacobian(x_shape)] *)
Definition ScaleNet__log_jacobian (E : Env) (logw : R) (x_shape : list nat)
  : option tensor :=
  if propagate_density E then
    tmul (logw_tensor logw) (ones x_shape)
  else
    let logwscaled :=
      tmap (fun v => v * INR (numel (tl x_shape))) (logw_tensor logw) in
    match x_shape with
    | [] => None
    | b :: _ => tmul logwscaled (ones [b])
    end.

Definition ScaleNet__forward (E : Env) (logw : R) (x log0 : tensor)
  : option (tensor * tensor) :=
  let* y := tmul x (tmap exp (logw_tensor logw)) in
  let* lj := ScaleNet__log_jacobian E logw (shape x) in
  let* l := tadd log0 lj in
  Some (y, l).

Definition ScaleNet__backward (E : Env) (logw : R) (x log0 : tensor)
  : option (tensor * tensor) :=
  let* y := tdiv x (tmap exp (logw_tensor logw)) in
  let* lj := ScaleNet__log_jacobian E logw (shape x) in
  let* l := tsub log0 lj in
  Some (y, l).

Definition Tanh__forward (E : Env) (self : attrs) (x log0 : tensor)
  : option (tensor * tensor) :=
  let logJ :=
    tmap (Rmult (-2)) (call_sum_density E (sum_density self) (tmap lncosh x)) in
  let* l := tadd log0 logJ in
  Some (tmap tanh x, l).

Definition ArcTanh__forward (E : Env) (self : attrs) (x log0 : tensor)
  : option (tensor * tensor) :=
  let y := tmap atanh x in
  let logJ :=
    tmap (Rmult 2) (call_sum_density E (sum_density self) (tmap lncosh y)) in
  let* l := tadd log0 logJ in
  Some (y, l).

(** [ArcTanh_().forward(x, log0)]: the dual is a new instance. *)
Definition Tanh__backward (E : Env) (self : attrs) (x log0 : tensor)
  : option (tensor * tensor) :=
  ArcTanh__forward E (Module___init__ None) x log0.

Definition ArcTanh__backward (E : Env) (self : attrs) (x log0 : tensor)
  : option (tensor * tensor) :=
  Tanh__forward E (Module___init__ None) x log0.

Definition Expit__forward (E : Env) (self : attrs) (x log0 : tensor)
  : option (tensor * tensor) :=
  let y := tmap (fun v => 1 / (1 + exp (- v))) x in
  let* d := tadd (tmap Ropp x) (tmap (fun v => 2 * ln v) y) in
  let logJ := call_sum_density E (sum_density self) d in
  let* l := tadd log0 logJ in
  Some (y, l).

Definition Logit__forward (E : Env) (self : attrs) (x log0 : tensor)
  : option (tensor * tensor) :=
  let* q := tdiv x (tmap (fun v => 1 - v) x) in
  let y := tmap ln q in
  let* p := tmul x (tmap (fun v => 1 - v) x) in
  let logJ := tmap Ropp (call_sum_density E (sum_density self) (tmap ln p)) in
  let* l := tadd log0 logJ in
  Some (y, l).

Definition Expit__backward (E : Env) (self : attrs) (x log0 : tensor)
  : option (tensor * tensor) :=
  Logit__forward E (Module___init__ None) x log0.

Definition Logit__backward (E : Env) (self : attrs) (x log0 : tensor)
  : option (tensor * tensor) :=
  Expit__forward E (Module___init__ None) x log0.

(** The two branches on [len(self.spline_shape) > 0], shared by [forward]
    (with [spline]) and [backward] (with [spline.backward]). *)
Definition SplineNet__apply (E : Env) (self : attrs) (cfg : SplineNet_config)
  (evaluate : tensor -> option (tensor * tensor)) (x log0 : tensor)
  : option (tensor * tensor) :=
  let* (fx, g) :=
    if Nat.ltb 0 (length (spline_shape cfg)) then
      evaluate x
    else
      let* (fx, g) := evaluate (ravel x) in
      let* fx' := reshape fx (shape x) in
      let* g' := reshape g (shape x) in
      Some (fx', g') in
  let logJ := call_sum_density E (sum_density self) (tmap ln g) in
  let* l := tadd log0 logJ in
  Some (fx, l).

Definition SplineNet__forward (E : Env) (self : attrs)
  (cfg : SplineNet_config) (x log0 : tensor) : option (tensor * tensor) :=
  SplineNet__apply E self cfg (spline_call (make_spline E cfg)) x log0.

Definition SplineNet__backward (E : Env) (self : attrs)
  (cfg : SplineNet_config) (x log0 : tensor) : option (tensor * tensor) :=
  SplineNet__apply E self cfg (spline_backward (make_spline E cfg)) x log0.

Definition SgnBiasNet__forward (w x log0 : tensor)
  : option (tensor * tensor) :=
  let* b := tmul (tmap sgn x) (tmap (fun v => v ^ 2) w) in
  let* y := tadd x b in
  Some (y, log0).

Definition SgnBiasNet__backward (w x log0 : tensor)
  : option (tensor * tensor) :=
  let* b := tmul (tmap sgn x) (tmap (fun v => v ^ 2) w) in
  let* y := tsub x b in
  Some (y, log0).

(** ** Dispatch of [forward] and [backward] on the class of the instance *)

Fixpoint forward (E : Env) (m : Module_) (x log0 : tensor) {struct m}
  : option (tensor * tensor) :=
  match m with
  | Identity_ _ => Some (x, log0)
  | Clone_ _ => Some (clone x, log0)
  | ScaleNet_ _ logw => ScaleNet__forward E logw x log0
  | Tanh_ self => Tanh__forward E self x log0
  | ArcTanh_ self => ArcTanh__forward E self x log0
  | Expit_ self => Expit__forward E self x log0
  | Logit_ self => Logit__forward E self x log0
  | SplineNet_ self cfg => SplineNet__forward E self cfg x log0
  | SgnBiasNet_ _ w => SgnBiasNet__forward w x log0
  | MaskedWrapperNet_ _ net_ mask original_net_sum_density =>
      let* (x_active, x_frozen) := split mask x in
      let* (x_active, logJ_density) := forward E net_ x_active (scalar 0) in
      let* x_active := purify mask x_active 0 in
      let* purified := purify mask logJ_density 0 in
      let logJ := call_sum_density E original_net_sum_density purified in
      let* y := cat mask x_active x_frozen in
      let* l := tadd log0 logJ in
      Some (y, l)
  end.

Fixpoint backward (E : Env) (m : Module_) (x log0 : tensor) {struct m}
  : option (tensor * tensor) :=
  match m with
  | Identity_ _ => Some (x, log0)
  | Clone_ _ => Some (clone x, log0)
  | ScaleNet_ _ logw => ScaleNet__backward E logw x log0
  | Tanh_ self => Tanh__backward E self x log0
  | ArcTanh_ self => ArcTanh__backward E self x log0
  | Expit_ self => Expit__backward E self x log0
  | Logit_ self => Logit__backward E self x log0
  | SplineNet_ self cfg => SplineNet__backward E self cfg x log0
  | SgnBiasNet_ _ w => SgnBiasNet__backward w x log0
  | MaskedWrapperNet_ _ net_ mask original_net_sum_density =>
      let* (x_active, x_frozen) := split mask x in
      let* (x_active, logJ_density) := backward E net_ x_active (scalar 0) in
      let* x_active := purify mask x_active 0 in
      let* purified := purify mask logJ_density 0 in
      let logJ := call_sum_density E original_net_sum_density purified in
      let* y := cat mask x_active x_frozen in
      let* l := tadd log0 logJ in
      Some (y, l)
  end.

(** [MaskedWrapperNet_(net_, mask=mask)].  The inner module is an object
    shared with the caller, and the constructor assigns to its attribute
    [sum_density]: the result is the wrapper together with the inner module
    as every holder of it sees it afterwards.  ['wrapper' + net_.label] is a
    [TypeError] when the inner module has no label. *)
Definition MaskedWrapperNet___init__ (net_ : Module_) (mask : Mask)
  : option (Module_ * Module_) :=
  let* l := label_of net_ in
  let self := Module___init__ (Some ("wrapper" ++ l)%string) in
  let original_net_sum_density := sum_density_of net_ in
  let net_' := set_sum_density net_ IdentityLambda in
  Some (MaskedWrapperNet_ self net_' mask original_net_sum_density, net_').

(** ** The distribution convertor, a [ModuleList_] *)

Record DistConvertor_ : Type := mkDistConvertor {
  dc_label : string;
  nets_ : list Module_
}.

(** [DistConvertor_(knots_len, symmetric, label, sgnbias, initial_scale,
    final_scale, **kwargs)].  [rand] is the number drawn by [torch.rand] for
    the parameter of [SgnBiasNet_()]. *)
Definition DistConvertor___init__ (knots_len : Z) (symmetric : bool)
  (label : string) (sgnbias initial_scale final_scale : bool)
  (kw_spline_shape : list nat) (rand : R) : DistConvertor_ :=
  let extra :=
    if symmetric
    then mkConfig knots_len (0.5, 1) (0.5, 1)
           (Some [("left", "anti")]%string) kw_spline_shape
    else mkConfig knots_len (0, 1) (0, 1) None kw_spline_shape in
  let nets_ :=
    if (knots_len >? 1)%Z then
      let spline_ := SplineNet___init__ "spline_" extra in
      [Expit_ (Module___init__ (Some "expit_"%string));
       spline_;
       Logit_ (Module___init__ (Some "logit_"%string))]
    else [] in
  let nets_ :=
    if initial_scale then [ScaleNet___init__ "scale_"] ++ nets_
    else if final_scale then nets_ ++ [ScaleNet___init__ "scale_"]
    else nets_ in
  let nets_ :=
    if sgnbias then [SgnBiasNet___init__ [1%nat] [rand] "sgnbias_"] ++ nets_
    else nets_ in
  mkDistConvertor label nets_.

(** Modelled from the spec: [ModuleList_.forward] of [_core], which is not
    among the sources: "[forward] applies modules in list order, threading
    [(x, log0)] through each". *)
Fixpoint ModuleList__forward (E : Env) (nets : list Module_)
  (x log0 : tensor) : option (tensor * tensor) :=
  match nets with
  | [] => Some (x, log0)
  | net_ :: rest =>
      let* (x', log0') := forward E net_ x log0 in
      ModuleList__forward E rest x' log0'
  end.

(** The loop of [ModuleList__backward] over a list that is already
    reversed. *)
Fixpoint backward_each (E : Env) (nets : list Module_)
  (x log0 : tensor) : option (tensor * tensor) :=
  match nets with
  | [] => Some (x, log0)
  | net_ :: rest =>
      let* (x', log0') := backward E net_ x log0 in
      backward_each E rest x' log0'
  end.

(** Modelled from the spec: [ModuleList_.backward] of [_core], which is not
    among the sources: "[backward] applies modules in reverse list order,
    threading [(y, log0)] through each module's [backward]". *)
Definition ModuleList__backward (E : Env) (nets : list Module_)
  (x log0 : tensor) : option (tensor * tensor) :=
  backward_each E (rev nets) x log0.

Definition DistConvertor__forward (E : Env) (self : DistConvertor_)
  (x log0 : tensor) : option (tensor * tensor) :=
  ModuleList__forward E (nets_ self) x log0.

Definition DistConvertor__backward (E : Env) (self : DistConvertor_)
  (x log0 : tensor) : option (tensor * tensor) :=
  ModuleList__backward E (nets_ self) x log0.

(** [net_.label == tag]; a module without a label matches no tag. *)
Definition label_is (tag : string) (net_ : Module_) : bool :=
  match label_of net_ with
  | Some l => String.eqb l tag
  | None => false
  end.

(** The loop [for net_ in self: if net_.label == tag: return net_], which
    falls through to [None]. *)
Fixpoint scan_label (tag : string) (nets : list Module_) : option Module_ :=
  match nets with
  | [] => None
  | net_ :: rest => if label_is tag net_ then Some net_ else scan_label tag rest
  end.

Definition get_spline_ (self : DistConvertor_) : option Module_ :=
  scan_label "spline_" (nets_ self).

Definition get_scale_ (self : DistConvertor_) : option Module_ :=
  scan_label "scale_" (nets_ self).

Definition get_sgnbias_ (self : DistConvertor_) : option Module_ :=
  scan_label "sgnbias_" (nets_ self).

(** [self.get_spline_(cdf)]: calling a module runs its [forward] with the
    default [log0=0]; calling [None] is a [TypeError]. *)
Definition cdf_mapper (E : Env) (self : DistConvertor_) (cdf : tensor)
  : option (tensor * tensor) :=
  let* spline_ := get_spline_ self in
  forward E spline_ cdf (scalar 0).

(** ** The spline transform in the words of the specification

    "Evaluate the spline at [x] (and, if the configured spline shape has
    zero rank, flatten [x] to 1-D before evaluation and restore shape after),
    obtaining [(y, grad)]; [logJ = reduce(log(grad))]", and
    [log0_out = log0 + logJ]. *)
Definition spec_spline_transform (reduce : tensor -> tensor)
  (rank : nat) (evaluate : tensor -> option (tensor * tensor))
  (x log0 : tensor) : option (tensor * tensor) :=
  let zero_rank := Nat.eqb rank 0 in
  let* (y, grad) := evaluate (if zero_rank then ravel x else x) in
  let* y := if zero_rank then reshape y (shape x) else Some y in
  let* grad := if zero_rank then reshape grad (shape x) else Some grad in
  let* log0_out := tadd log0 (reduce (tmap ln grad)) in
  Some (y, log0_out).

(** ** Instances used to run the definitions on concrete inputs *)

(** A mask given by a tensor [m] of zeros and ones: the active part is
    [m * x], the frozen part [(1 - m) * x], and [cat] adds the two. *)
Definition lane_mask (m : tensor) : Mask :=
  mkMask
    (fun x =>
       let* a := tmul m x in
       let* f := tmul (tmap (fun v => 1 - v) m) x in
       Some (a, f))
    (fun v channel =>
       if Nat.eqb channel 0 then tmul m v
       else tmul (tmap (fun v => 1 - v) m) v)
    (fun a f => tadd a f).

(** The spline that is the identity map, with gradient one everywhere. *)
Definition identity_spline : Spline :=
  mkSpline (fun x => Some (x, ones (shape x)))
           (fun x => Some (x, ones (shape x))).

Definition scalar_mode : Env := mkEnv false (fun _ => identity_spline).
Definition density_mode : Env := mkEnv true (fun _ => identity_spline).


(** ** The common form of the four saturating modules

    [Tanh_], [ArcTanh_], [Expit_] and [Logit_] all map the sample elementwise
    through some [f] and add [k (sum_density (g x))] to the log-density. *)
Definition elementwise (E : Env) (reduce : sum_density_attr)
  (f g k : R -> R) (x log0 : tensor) : option (tensor * tensor) :=
  let* l := tadd log0 (tmap k (call_sum_density E reduce (tmap g x))) in
  Some (tmap f x, l).

(** Every element of the tensor is [c]. *)
Definition all_equal (c : R) (t : tensor) : Prop :=
  Forall (fun v => v = c) (data t).

Definition within (lo hi : R) (t : tensor) : Prop :=
  Forall (fun v => lo < v < hi) (data t).

(** A sample with one batch item and two sites. *)
Definition sample_1x2 : tensor := mkT [1%nat; 2%nat] [0; 1 / 2].

(** ** Vocabulary of the statements about the convertor *)

Definition is_ScaleNet_ (m : Module_) : bool :=
  match m with
  | ScaleNet_ _ _ => true
  | _ => false
  end.

(** [m] is the first module of [nets] whose label is [tag]. *)
Definition first_labelled (tag : string) (nets : list Module_) (m : Module_)
  : Prop :=
  exists before after,
    nets = before ++ m :: after /\
    label_of m = Some tag /\
    Forall (fun n => label_of n <> Some tag) before.

(** No module of [nets] carries the label [tag]. *)
Definition none_labelled (tag : string) (nets : list Module_) : Prop :=
  Forall (fun n => label_of n <> Some tag) nets.

(** The triple [Expit_, SplineNet_, Logit_] built around a configuration. *)
Definition spline_triple (cfg : SplineNet_config) : list Module_ :=
  [Expit_ (Module___init__ (Some "expit_"%string));
   SplineNet_ (Module___init__ (Some "spline_"%string)) cfg;
   Logit_ (Module___init__ (Some "logit_"%string))].

(** ** The masked wrapper in the words of the specification

    "[(active, frozen) = mask.split(x)]; apply inner module's forward to
    [active] to get [(active', logJ_density)]; purify [active'] and
    [logJ_density] against the mask's active channel; reduce the purified
    density using the inner module's original density-reduction function,
    saved at wrap time; recombine via [mask.cat(active', frozen)]." *)
Definition spec_masked_transform (mask : Mask)
  (inner : tensor -> tensor -> option (tensor * tensor))
  (original_reduce : tensor -> tensor) (x log0 : tensor)
  : option (tensor * tensor) :=
  let* (active, frozen) := split mask x in
  let* (active', logJ_density) := inner active (scalar 0) in
  let* active'' := purify mask active' 0 in
  let* purified := purify mask logJ_density 0 in
  let* y := cat mask active'' frozen in
  let* log0_out := tadd log0 (original_reduce purified) in
  Some (y, log0_out).

(** The modules whose [forward] reduces its density through
    [self.sum_density], or adds no density at all. *)
Definition reduces_through_attribute (m : Module_) : bool :=
  match m with
  | Identity_ _ | Clone_ _ | SgnBiasNet_ _ _ => true
  | Tanh_ _ | ArcTanh_ _ | Expit_ _ | Logit_ _ | SplineNet_ _ _ => true
  | ScaleNet_ _ _ | MaskedWrapperNet_ _ _ _ _ => false
  end.

(** The same environment with densities propagated per element. *)
Definition per_element (E : Env) : Env := mkEnv true (make_spline E).

(** ** A mask that checks the geometry of what it is given

    Like [lane_mask], for tensors that have exactly the shape of [m]; any
    other argument is rejected. *)
Fixpoint same_shape (s t : list nat) : bool :=
  match s, t with
  | [], [] => true
  | a :: s', b :: t' => Nat.eqb a b && same_shape s' t'
  | _, _ => false
  end.

Definition fits (m x : tensor) : bool :=
  same_shape (shape x) (shape m)
  && Nat.eqb (length (data x)) (length (data m)).

Definition checked_lane_mask (m : tensor) : Mask :=
  mkMask
    (fun x =>
       if fits m x then
         Some (mkT (shape x) (zipWith Rmult (data m) (data x)),
               mkT (shape x)
                 (zipWith (fun u v => (1 - u) * v) (data m) (data x)))
       else None)
    (fun v channel =>
       if fits m v then
         Some (mkT (shape v)
                 (zipWith (if Nat.eqb channel 0 then Rmult
                           else fun u v => (1 - u) * v)
                    (data m) (data v)))
       else None)
    (fun a f =>
       if fits m a && fits m f then
         Some (mkT (shape a) (zipWith Rplus (data a) (data f)))
       else None).

(** The first lane active, the second frozen. *)
Definition mask_1x2 : tensor := mkT [1%nat; 2%nat] [1; 0].

(** [split] then [cat] on unmodified parts is the identity. *)
Definition split_cat_identity (mask : Mask) : Prop :=
  forall x a f, split mask x = Some (a, f) -> cat mask a f = Some x.

(** Modelled from the spec: the contract of the class [Mask], which is not
    among the sources.  A mask is "an external capability partitioning Sample
    elements into active and frozen subsets"; [frozen_lane i] says that the
    element at position [i] of the row-major data is frozen.  "[split] then
    [cat] on unmodified parts must be the identity"; the active part holds
    none of the frozen elements; [purify] "zeroes out ... inactive lanes";
    and [cat] takes a frozen lane from the frozen part where the active part
    is null. *)
Record mask_contract (mask : Mask) (frozen_lane : nat -> Prop) : Prop :=
  mkContract {
    split_then_cat : split_cat_identity mask;
    active_part_null :
      forall x a f i,
        split mask x = Some (a, f) -> frozen_lane i -> nth i (data a) 0 = 0;
    purify_nulls :
      forall v p i,
        purify mask v 0 = Some p -> frozen_lane i -> nth i (data p) 0 = 0;
    cat_frozen_lane :
      forall a f y i,
        cat mask a f = Some y -> frozen_lane i ->
        nth i (data a) 0 = 0 -> nth i (data y) 0 = nth i (data f) 0
  }.

(** *** A mask that selects lanes

    [pick b a f] takes an element of [a] where [b] holds and of [f]
    elsewhere, as [torch.where(b, a, f)] does. *)
Fixpoint pick (b : list bool) (a f : list R) : list R :=
  match b, a, f with
  | c :: b', u :: a', v :: f' => (if c then u else v) :: pick b' a' f'
  | _, _, _ => []
  end.

Definition fits_lanes (s : list nat) (b : list bool) (x : tensor) : bool :=
  same_shape (shape x) s && Nat.eqb (length (data x)) (length b).

(** The mask of samples of shape [s] given by one boolean per element,
    [true] on the active lanes: the parts keep the shape of the sample, with
    zeros on the lanes of the other part; any other geometry is rejected.
    Selecting writes the zero itself, whatever the lane held. *)
Definition select_mask (s : list nat) (b : list bool) : Mask :=
  mkMask
    (fun x =>
       if fits_lanes s b x then
         let z := repeat 0 (length (data x)) in
         Some (mkT (shape x) (pick b (data x) z),
               mkT (shape x) (pick b z (data x)))
       else None)
    (fun v channel =>
       if fits_lanes s b v then
         let z := repeat 0 (length (data v)) in
         Some (mkT (shape v)
                 (if Nat.eqb channel 0 then pick b (data v) z
                  else pick b z (data v)))
       else None)
    (fun a f =>
       if fits_lanes s b a && fits_lanes s b f then
         Some (mkT (shape a) (pick b (data a) (data f)))
       else None).

(** The lanes that [select_mask] freezes. *)
Definition frozen_in (b : list bool) (i : nat) : Prop := nth i b true = false.

(** ** The reduction override in the words of the specification

    "The inner module's own forward/backward calls return an un-reduced
    per-element density that the wrapper then reduces itself after
    purification": whatever the inner module, the wrapper purifies and
    reduces the density that the module computes per element. *)
Definition purifies_the_per_element_density : Prop :=
  forall (E : Env) (net_ : Module_) (mask : Mask) (W net_' : Module_)
         (x log0 : tensor),
    MaskedWrapperNet___init__ net_ mask = Some (W, net_') ->
    forward E W x log0
    = spec_masked_transform mask (forward (per_element E) net_)
        (call_sum_density E (sum_density_of net_)) x log0 /\
    backward E W x log0
    = spec_masked_transform mask (backward (per_element E) net_)
        (call_sum_density E (sum_density_of net_)) x log0.

(** A mask of the shape of a sample with two batch items of two sites: the
    first site active, the second frozen. *)
Definition mask_2x2 : tensor := mkT [2%nat; 2%nat] [1; 0; 1; 0].

(** [Tanh_(label='tanh_')] wrapped by [MaskedWrapperNet_] around a mask, as
    the constructor leaves the two objects. *)
Definition wrapped_tanh (mask : Mask) : Module_ :=
  MaskedWrapperNet_ (Module___init__ (Some "wrappertanh_"%string))
    (Tanh_ (mkAttrs (Some "tanh_"%string) IdentityLambda))
    mask ClassReduction.

(** Three lanes per batch item, the middle one frozen. *)
Definition mask_3 : tensor := mkT [3%nat] [1; 0; 1].

(** A sample with two batch items of three sites. *)
Definition sample_2x3 : tensor :=
  mkT [2%nat; 3%nat] [0; 1; 2; 3; 4; 5].

(** Two lanes per batch item, the second one frozen. *)
Definition mask_2 : tensor := mkT [2%nat] [1; 0].

(** A sample with two batch items of two sites. *)
Definition sample_2x2 : tensor :=
  mkT [2%nat; 2%nat] [0; 0; 1; 0].

(** ** Vocabulary of the round-trip statements *)

(** [backward] applied to the result of [forward(x, c)] returns [x], and a
    log-density whose entries are all [c]. *)
Definition round_trip (E : Env) (m : Module_) (x : tensor) (c : R) : Prop :=
  exists y l1 l2,
    forward E m x (scalar c) = Some (y, l1) /\
    backward E m y l1 = Some (x, l2) /\
    all_equal c l2.

(** The domain on which the map of an elementary module is a bijection. *)
Definition in_domain (m : Module_) (x : tensor) : Prop :=
  match m with
  | ArcTanh_ _ => within (-1) 1 x
  | Logit_ _ => within 0 1 x
  | _ => True
  end.

(** The elementary modules as their constructors leave them: the class's
    own reduction, and for [SgnBiasNet_] a parameter of the default size. *)
Definition elementary (m : Module_) : Prop :=
  match m with
  | Identity_ _ | Clone_ _ | ScaleNet_ _ _ => True
  | Tanh_ a | ArcTanh_ a | Expit_ a | Logit_ a =>
      sum_density a = ClassReduction
  | SgnBiasNet_ _ w => exists w0, w = mkT [1%nat] [w0]
  | SplineNet_ _ _ | MaskedWrapperNet_ _ _ _ _ => False
  end.

(** Each module of the list inverts the step it takes from the point that
    the modules before it have reached. *)
Fixpoint inverts_along (E : Env) (nets : list Module_) (x log0 : tensor)
  : Prop :=
  match nets with
  | [] => True
  | m :: rest =>
      forall x' l', forward E m x log0 = Some (x', l') ->
                    backward E m x' l' = Some (x, log0) /\
                    inverts_along E rest x' l'
  end.

(** The contract of the spline evaluator: value and gradient have the shape
    of the argument, the gradient is strictly positive, and the inverse
    evaluation at the value returns the argument with the reciprocal
    gradient. *)
Definition spline_contract (S : Spline) : Prop :=
  forall x fx g,
    wf x -> spline_call S x = Some (fx, g) ->
    wf fx /\ shape fx = shape x /\ wf g /\ shape g = shape x /\
    Forall (fun v => 0 < v) (data g) /\
    spline_backward S fx = Some (x, tmap Rinv g).

(** The modules whose [backward] reduces its density through
    [self.sum_density], or adds no density at all. *)
Definition backward_reduces_through_attribute (m : Module_) : bool :=
  match m with
  | Identity_ _ | Clone_ _ | SgnBiasNet_ _ _ | SplineNet_ _ _ => true
  | _ => false
  end.

(** The modules whose map acts on each element of the sample by itself;
    for [SgnBiasNet_], with a parameter of the default size. *)
Definition acts_on_each_element (m : Module_) : Prop :=
  match m with
  | Identity_ _ | Clone_ _ | ScaleNet_ _ _ => True
  | Tanh_ _ | ArcTanh_ _ | Expit_ _ | Logit_ _ => True
  | SgnBiasNet_ _ w => exists w0, w = mkT [1%nat] [w0]
  | SplineNet_ _ _ | MaskedWrapperNet_ _ _ _ _ => False
  end.

(** A spline configuration on the unit interval with [spline_shape=[]]. *)
Definition unit_config : SplineNet_config :=
  mkConfig 4 (0, 1) (0, 1) None [].

(** The function of one element that a module acting on each element by
    itself applies in [forward]. *)
Definition sample_map (m : Module_) : R -> R :=
  match m with
  | ScaleNet_ _ logw => fun v => v * exp logw
  | Tanh_ _ => tanh
  | ArcTanh_ _ => atanh
  | Expit_ _ => expit
  | Logit_ _ => logit
  | SgnBiasNet_ _ w => fun v => v + sgn v * hd 0 (data w) ^ 2
  | _ => fun v => v
  end.

(* ================================================================== *)
(** * Part II: properties *)
(* ================================================================== *)

(** ** Lists and blocks *)

Lemma zipWith_map (f : R -> R -> R) (g h : R -> R) (l : list R) :
  zipWith f (map g l) (map h l) = map (fun v => f (g v) (h v)) l.
Proof.
  induction l as [|a l IH]; simpl; [reflexivity|].
  now rewrite IH.
Qed.

Lemma zipWith_repeat_l (f : R -> R -> R) (c : R) (l : list R) :
  zipWith f (repeat c (length l)) l = map (f c) l.
Proof.
  induction l as [|a l IH]; simpl; [reflexivity|].
  now rewrite IH.
Qed.

Lemma zipWith_repeat_r (f : R -> R -> R) (c : R) (l : list R) :
  zipWith f l (repeat c (length l)) = map (fun v => f v c) l.
Proof.
  induction l as [|a l IH]; simpl; [reflexivity|].
  now rewrite IH.
Qed.

Lemma zipWith_length (f : R -> R -> R) (l1 l2 : list R) :
  length l1 = length l2 -> length (zipWith f l1 l2) = length l1.
Proof.
  revert l2; induction l1 as [|a l1 IH]; intros [|b l2] H; simpl in *;
    try reflexivity; try discriminate.
  f_equal. apply IH. now injection H.
Qed.

Lemma concat_chunks (k m : nat) (l : list R) :
  length l = (m * k)%nat -> concat (chunks k m l) = l.
Proof.
  revert l; induction m as [|m IH]; intros l H; simpl in *.
  - now destruct l.
  - rewrite IH.
    + apply firstn_skipn.
    + rewrite length_skipn. lia.
Qed.

Lemma chunks_length (k m : nat) (l : list R) :
  length l = (m * k)%nat -> Forall (fun c => length c = k) (chunks k m l).
Proof.
  revert l; induction m as [|m IH]; intros l H; simpl in *; constructor.
  - rewrite length_firstn. lia.
  - apply IH. rewrite length_skipn. lia.
Qed.

Lemma concat_repeat_repeat (c : R) (k n : nat) :
  concat (repeat (repeat c k) n) = repeat c (n * k).
Proof.
  induction n as [|n IH]; simpl; [reflexivity|].
  now rewrite IH, repeat_app.
Qed.

(** ** Broadcasting *)

Lemma bdim_same (a : nat) : bdim a a = Some a.
Proof. unfold bdim. now rewrite Nat.eqb_refl. Qed.

Lemma bdim_one_r (a : nat) : bdim a 1 = Some a.
Proof.
  unfold bdim. destruct (Nat.eqb a 1) eqn:H; [reflexivity|].
  reflexivity.
Qed.

Lemma bdim_one_l (a : nat) : bdim 1 a = Some a.
Proof.
  unfold bdim. destruct (Nat.eqb 1 a) eqn:H; [|reflexivity].
  apply Nat.eqb_eq in H. now subst.
Qed.

Lemma bshape_rev_same (r : list nat) : bshape_rev r r = Some r.
Proof.
  induction r as [|a r IH]; simpl; [reflexivity|].
  now rewrite bdim_same, IH.
Qed.

Lemma bshape_rev_nil_r (r : list nat) : bshape_rev r [] = Some r.
Proof. now destruct r. Qed.

Lemma broadcast_shapes_same (s : list nat) : broadcast_shapes s s = Some s.
Proof.
  unfold broadcast_shapes. rewrite bshape_rev_same. simpl.
  now rewrite rev_involutive.
Qed.

Lemma broadcast_shapes_nil_l (s : list nat) : broadcast_shapes [] s = Some s.
Proof.
  unfold broadcast_shapes. simpl. now rewrite rev_involutive.
Qed.

Lemma broadcast_shapes_nil_r (s : list nat) : broadcast_shapes s [] = Some s.
Proof.
  unfold broadcast_shapes. simpl. rewrite bshape_rev_nil_r. simpl.
  now rewrite rev_involutive.
Qed.

Lemma broadcast_shapes_one_r (s : list nat) :
  s <> [] -> broadcast_shapes s [1%nat] = Some s.
Proof.
  intros Hs. unfold broadcast_shapes. simpl.
  destruct (rev s) as [|a r] eqn:Hr.
  - apply (f_equal (@rev nat)) in Hr. rewrite rev_involutive in Hr.
    now destruct Hs.
  - cbn [bshape_rev]. rewrite bdim_one_r. cbn [bind].
    rewrite bshape_rev_nil_r. cbn [bind option_map].
    now rewrite <- Hr, rev_involutive.
Qed.

Lemma broadcast_shapes_one_l (s : list nat) :
  s <> [] -> broadcast_shapes [1%nat] s = Some s.
Proof.
  intros Hs. unfold broadcast_shapes. simpl.
  destruct (rev s) as [|a r] eqn:Hr.
  - apply (f_equal (@rev nat)) in Hr. rewrite rev_involutive in Hr.
    now destruct Hs.
  - cbn [bshape_rev]. rewrite bdim_one_l. cbn [bind option_map].
    now rewrite <- Hr, rev_involutive.
Qed.

Lemma expand_same (s : list nat) (d : list R) :
  length d = numel s -> expand s s d = d.
Proof.
  revert d; induction s as [|n s IH]; intros d H; [reflexivity|].
  cbn [expand]. rewrite Nat.ltb_irrefl, Nat.eqb_refl.
  simpl in H.
  rewrite (map_ext_in _ (fun c => c)).
  - rewrite map_id. now apply concat_chunks.
  - intros c Hc. apply IH.
    pose proof (chunks_length (numel s) n d H) as HF.
    rewrite Forall_forall in HF. now apply HF.
Qed.

Lemma expand_cons_lt (n : nat) (t s : list nat) (d : list R) :
  (length s < S (length t))%nat ->
  expand (n :: t) s d = concat (repeat (expand t s d) n).
Proof.
  intros H. apply Nat.ltb_lt in H. cbn [expand length]. now rewrite H.
Qed.

Lemma expand_scalar (t : list nat) (c : R) :
  expand t [] [c] = repeat c (numel t).
Proof.
  induction t as [|n t IH]; [reflexivity|].
  rewrite expand_cons_lt by (simpl; lia).
  now rewrite IH, concat_repeat_repeat.
Qed.

Lemma expand_one (t : list nat) (c : R) :
  t <> [] -> expand t [1%nat] [c] = repeat c (numel t).
Proof.
  induction t as [|n t IH]; intros Ht; [now destruct Ht|].
  destruct t as [|n' t'].
  - cbn [expand numel length]. rewrite Nat.ltb_irrefl.
    destruct (Nat.eqb 1 n) eqn:Hn.
    + apply Nat.eqb_eq in Hn. subst n. reflexivity.
    + change [c] with (repeat c 1). now rewrite concat_repeat_repeat.
  - rewrite expand_cons_lt by (simpl; lia).
    rewrite IH by discriminate.
    now rewrite concat_repeat_repeat.
Qed.

(** ** Elementwise operations in the three cases the modules meet *)

Lemma tbin_same (f : R -> R -> R) (a b : tensor) :
  wf a -> wf b -> shape a = shape b ->
  tbin f a b = Some (mkT (shape a) (zipWith f (data a) (data b))).
Proof.
  unfold wf, tbin. intros Ha Hb Hs. rewrite <- Hs.
  rewrite broadcast_shapes_same. simpl.
  rewrite expand_same by assumption.
  rewrite Hs. rewrite expand_same by assumption.
  now rewrite <- Hs.
Qed.

Lemma tbin_scalar_l (f : R -> R -> R) (c : R) (b : tensor) :
  wf b -> tbin f (scalar c) b = Some (tmap (f c) b).
Proof.
  unfold wf, tbin, tmap, scalar. intros Hb. cbn [shape data].
  rewrite broadcast_shapes_nil_l. cbn [bind].
  rewrite expand_scalar, expand_same by assumption.
  now rewrite <- Hb, zipWith_repeat_l.
Qed.

Lemma tbin_one_r (f : R -> R -> R) (a : tensor) (c : R) :
  wf a -> shape a <> [] ->
  tbin f a (mkT [1%nat] [c]) = Some (tmap (fun v => f v c) a).
Proof.
  unfold wf, tbin, tmap. intros Ha Hs. cbn [shape data].
  rewrite broadcast_shapes_one_r by assumption. cbn [bind].
  rewrite expand_one, expand_same by assumption.
  now rewrite <- Ha, zipWith_repeat_r.
Qed.

Lemma tbin_one_l (f : R -> R -> R) (c : R) (b : tensor) :
  wf b -> shape b <> [] ->
  tbin f (mkT [1%nat] [c]) b = Some (tmap (f c) b).
Proof.
  unfold wf, tbin, tmap. intros Hb Hs. cbn [shape data].
  rewrite broadcast_shapes_one_l by assumption. cbn [bind].
  rewrite expand_one, expand_same by assumption.
  now rewrite <- Hb, zipWith_repeat_l.
Qed.

Lemma wf_tmap (f : R -> R) (t : tensor) : wf t -> wf (tmap f t).
Proof. unfold wf, tmap. simpl. now rewrite length_map. Qed.

Lemma tmap_tmap (f g : R -> R) (t : tensor) :
  tmap f (tmap g t) = tmap (fun v => f (g v)) t.
Proof. unfold tmap. simpl. now rewrite map_map. Qed.

Lemma tmap_ext_in (f g : R -> R) (t : tensor) :
  (forall v, In v (data t) -> f v = g v) -> tmap f t = tmap g t.
Proof. unfold tmap. intros H. f_equal. now apply map_ext_in. Qed.

Lemma tmap_id (t : tensor) : tmap (fun v => v) t = t.
Proof. unfold tmap. rewrite map_id. now destruct t. Qed.

(** ** The real functions: ranges, inverses and derivatives *)

Lemma cosh_pos (x : R) : 0 < cosh x.
Proof.
  unfold cosh. pose proof (exp_pos x). pose proof (exp_pos (- x)). lra.
Qed.

Lemma tanh_exp (x : R) : tanh x = (exp x * exp x - 1) / (exp x * exp x + 1).
Proof.
  unfold tanh, sinh, cosh. rewrite exp_Ropp.
  pose proof (exp_pos x) as H. field. split; nra.
Qed.

Lemma tanh_bounds (x : R) : -1 < tanh x < 1.
Proof.
  rewrite tanh_exp. pose proof (exp_pos x) as H.
  assert (0 < exp x * exp x) by nra.
  split.
  - apply Rmult_lt_reg_r with (exp x * exp x + 1); [lra|].
    unfold Rdiv. rewrite Rmult_assoc, Rinv_l by lra. lra.
  - apply Rmult_lt_reg_r with (exp x * exp x + 1); [lra|].
    unfold Rdiv. rewrite Rmult_assoc, Rinv_l by lra. lra.
Qed.

Lemma atanh_tanh (x : R) : atanh (tanh x) = x.
Proof.
  unfold atanh. rewrite tanh_exp. pose proof (exp_pos x) as H.
  replace ((1 + (exp x * exp x - 1) / (exp x * exp x + 1)) /
           (1 - (exp x * exp x - 1) / (exp x * exp x + 1)))
    with (exp x * exp x) by (field; split; nra).
  rewrite ln_mult, ln_exp by assumption. lra.
Qed.

Lemma tanh_atanh (y : R) : -1 < y < 1 -> tanh (atanh y) = y.
Proof.
  intros Hy. rewrite tanh_exp. unfold atanh.
  assert (Hu : 0 < (1 + y) / (1 - y)).
  { apply Rdiv_lt_0_compat; lra. }
  rewrite <- exp_plus.
  replace (ln ((1 + y) / (1 - y)) / 2 + ln ((1 + y) / (1 - y)) / 2)
    with (ln ((1 + y) / (1 - y))) by lra.
  rewrite exp_ln by assumption. field. lra.
Qed.

Lemma expit_bounds (x : R) : 0 < expit x < 1.
Proof.
  unfold expit. pose proof (exp_pos (- x)) as H. split.
  - apply Rdiv_lt_0_compat; lra.
  - apply Rmult_lt_reg_r with (1 + exp (- x)); [lra|].
    unfold Rdiv. rewrite Rmult_assoc, Rinv_l by lra. lra.
Qed.

Lemma logit_expit (x : R) : logit (expit x) = x.
Proof.
  unfold logit, expit. rewrite exp_Ropp. pose proof (exp_pos x) as H.
  assert (0 < / exp x) by now apply Rinv_0_lt_compat.
  replace (1 / (1 + / exp x) / (1 - 1 / (1 + / exp x))) with (exp x)
    by (field; split; [|split]; lra).
  apply ln_exp.
Qed.

Lemma expit_logit (y : R) : 0 < y < 1 -> expit (logit y) = y.
Proof.
  intros Hy. unfold logit, expit.
  assert (Hu : 0 < y / (1 - y)) by (apply Rdiv_lt_0_compat; lra).
  rewrite exp_Ropp, exp_ln by assumption. field. lra.
Qed.

(** The per-element log-Jacobian of Logit at [y = expit x] is the negative of
    that of Expit at [x]. *)
Lemma expit_logit_logJ (x : R) :
  ln (expit x * (1 - expit x)) = - x + 2 * ln (expit x).
Proof.
  pose proof (expit_bounds x) as Hb.
  assert (E : 1 - expit x = exp (- x) * expit x).
  { unfold expit. pose proof (exp_pos (- x)). field. lra. }
  rewrite E.
  rewrite ln_mult, ln_mult, ln_exp; try lra; try apply exp_pos.
Qed.

Lemma logit_expit_logJ (y : R) : 0 < y < 1 ->
  - logit y + 2 * ln (expit (logit y)) = ln (y * (1 - y)).
Proof.
  intros Hy. rewrite expit_logit by assumption. unfold logit.
  unfold Rdiv. rewrite ln_mult, ln_Rinv, ln_mult; try lra.
  apply Rinv_0_lt_compat; lra.
Qed.

(** ** Reductions keep tensors well formed *)

Lemma chunks_count (k m : nat) (l : list R) : length (chunks k m l) = m.
Proof.
  revert l; induction m as [|m IH]; intros l; simpl; [reflexivity|].
  now rewrite IH.
Qed.

Lemma wf_sum_nonbatch (t : tensor) : wf t -> wf (sum_nonbatch t).
Proof.
  unfold wf, sum_nonbatch. intros H.
  destruct (shape t) as [|b rest] eqn:Hs; [now rewrite Hs|].
  simpl. rewrite length_map, chunks_count. lia.
Qed.

Lemma wf_call_sum_density (E : Env) (f : sum_density_attr) (t : tensor) :
  wf t -> wf (call_sum_density E f t).
Proof.
  intros H. destruct f; simpl; [|assumption].
  unfold Module__sum_density. destruct (propagate_density E);
    [assumption|now apply wf_sum_nonbatch].
Qed.

Lemma shape_sum_nonbatch (t : tensor) (b : nat) (rest : list nat) :
  shape t = b :: rest -> shape (sum_nonbatch t) = [b].
Proof. unfold sum_nonbatch. intros H. now rewrite H. Qed.

(** The shape of a reduced density: the shape of the sample when densities
    are propagated, one entry per batch item otherwise. *)
Lemma shape_Module__sum_density (E : Env) (t : tensor) (b : nat)
  (rest : list nat) :
  shape t = b :: rest ->
  shape (Module__sum_density E t) =
    if propagate_density E then b :: rest else [b].
Proof.
  intros H. unfold Module__sum_density. destruct (propagate_density E).
  - assumption.
  - now apply shape_sum_nonbatch with rest.
Qed.

(** ** The saturating modules as elementwise transforms *)

Lemma zipWith_map_r (f : R -> R -> R) (h : R -> R) (l : list R) :
  zipWith f l (map h l) = map (fun v => f v (h v)) l.
Proof.
  induction l as [|a l IH]; simpl; [reflexivity|].
  now rewrite IH.
Qed.

Lemma Tanh__forward_elementwise (E : Env) (self : attrs) (x log0 : tensor) :
  Tanh__forward E self x log0 =
  elementwise E (sum_density self) tanh lncosh (Rmult (-2)) x log0.
Proof. reflexivity. Qed.

Lemma ArcTanh__forward_elementwise (E : Env) (self : attrs)
  (x log0 : tensor) :
  ArcTanh__forward E self x log0 =
  elementwise E (sum_density self) atanh (fun v => lncosh (atanh v))
    (Rmult 2) x log0.
Proof.
  unfold ArcTanh__forward, elementwise. now rewrite tmap_tmap.
Qed.

Lemma Expit__forward_elementwise (E : Env) (self : attrs) (x log0 : tensor) :
  wf x ->
  Expit__forward E self x log0 =
  elementwise E (sum_density self) expit
    (fun v => - v + 2 * ln (expit v)) (fun s => s) x log0.
Proof.
  intros Hx. unfold Expit__forward, elementwise, tadd at 1.
  rewrite tbin_same by (try reflexivity; repeat apply wf_tmap; assumption).
  cbn [bind shape data tmap]. rewrite map_map, zipWith_map.
  rewrite tmap_id. reflexivity.
Qed.

Lemma Logit__forward_elementwise (E : Env) (self : attrs) (x log0 : tensor) :
  wf x ->
  Logit__forward E self x log0 =
  elementwise E (sum_density self) logit
    (fun v => ln (v * (1 - v))) Ropp x log0.
Proof.
  intros Hx. unfold Logit__forward, elementwise, tdiv, tmul.
  rewrite !tbin_same by (try reflexivity; repeat apply wf_tmap; assumption).
  cbn [bind]. unfold tmap. cbn [shape data].
  rewrite !zipWith_map_r, !map_map. reflexivity.
Qed.

(** An elementwise transform followed by its inverse gives the sample and
    the log-density back, when the two densities cancel pointwise. *)
Lemma elementwise_roundtrip (E : Env) (reduce : sum_density_attr)
  (f1 g1 k1 f2 g2 k2 : R -> R) (x : tensor) (c : R) :
  wf x ->
  (forall v, In v (data x) -> f2 (f1 v) = v /\ g2 (f1 v) = g1 v) ->
  (forall s, k1 s + k2 s = 0) ->
  exists l1,
    elementwise E reduce f1 g1 k1 x (scalar c) = Some (tmap f1 x, l1) /\
    elementwise E reduce f2 g2 k2 (tmap f1 x) l1
      = Some (x, tmap (fun _ => c) l1) /\
    shape l1 = shape (call_sum_density E reduce (tmap g1 x)).
Proof.
  intros Hx Hinv Hk.
  set (S := call_sum_density E reduce (tmap g1 x)).
  assert (HS : wf S) by (apply wf_call_sum_density, wf_tmap, Hx).
  exists (tmap (Rplus c) (tmap k1 S)).
  assert (Hg : tmap g2 (tmap f1 x) = tmap g1 x).
  { rewrite tmap_tmap. apply tmap_ext_in. intros v Hv. now apply Hinv. }
  assert (Hf : tmap f2 (tmap f1 x) = x).
  { rewrite tmap_tmap. rewrite <- (tmap_id x) at 2.
    apply tmap_ext_in. intros v Hv. now apply Hinv. }
  repeat split.
  - unfold elementwise, tadd. fold S.
    rewrite tbin_scalar_l by now apply wf_tmap. reflexivity.
  - unfold elementwise, tadd. rewrite Hg, Hf. fold S.
    rewrite tbin_same by (try reflexivity; repeat apply wf_tmap; assumption).
    cbn [bind]. do 2 f_equal. unfold tmap. cbn [shape data]. f_equal.
    rewrite !map_map, zipWith_map. apply map_ext. intros s.
    specialize (Hk s). lra.
Qed.

(** At corresponding points the densities of the two maps are opposite. *)
Lemma elementwise_opposite (E : Env) (reduce : sum_density_attr)
  (f1 g1 k1 f2 g2 k2 : R -> R) (x : tensor) :
  wf x ->
  (forall v, In v (data x) -> f2 (f1 v) = v /\ g2 (f1 v) = g1 v) ->
  (forall s, k1 s + k2 s = 0) ->
  exists l,
    elementwise E reduce f1 g1 k1 x (scalar 0) = Some (tmap f1 x, l) /\
    elementwise E reduce f2 g2 k2 (tmap f1 x) (scalar 0)
      = Some (x, tmap Ropp l).
Proof.
  intros Hx Hinv Hk.
  set (S := call_sum_density E reduce (tmap g1 x)).
  assert (HS : wf S) by (apply wf_call_sum_density, wf_tmap, Hx).
  exists (tmap (Rplus 0) (tmap k1 S)).
  assert (Hg : tmap g2 (tmap f1 x) = tmap g1 x).
  { rewrite tmap_tmap. apply tmap_ext_in. intros v Hv. now apply Hinv. }
  assert (Hf : tmap f2 (tmap f1 x) = x).
  { rewrite tmap_tmap. rewrite <- (tmap_id x) at 2.
    apply tmap_ext_in. intros v Hv. now apply Hinv. }
  split.
  - unfold elementwise, tadd. fold S.
    rewrite tbin_scalar_l by now apply wf_tmap. reflexivity.
  - unfold elementwise, tadd. rewrite Hg, Hf. fold S.
    rewrite tbin_scalar_l by now apply wf_tmap.
    cbn [bind]. do 2 f_equal. rewrite !tmap_tmap.
    apply tmap_ext_in. intros s _. specialize (Hk s). lra.
Qed.

Lemma within_In (lo hi : R) (t : tensor) (v : R) :
  within lo hi t -> In v (data t) -> lo < v < hi.
Proof.
  unfold within. rewrite Forall_forall. intros H Hv. now apply H.
Qed.

(** ** Inverse pairs *)

Lemma tanh_pair (v : R) :
  atanh (tanh v) = v /\ lncosh (atanh (tanh v)) = lncosh v.
Proof. now rewrite atanh_tanh. Qed.

Lemma atanh_pair (v : R) :
  -1 < v < 1 -> tanh (atanh v) = v /\ lncosh (atanh v) = lncosh (atanh v).
Proof. intros H. split; [now apply tanh_atanh|reflexivity]. Qed.

Lemma expit_pair (v : R) :
  logit (expit v) = v /\
  ln (expit v * (1 - expit v)) = - v + 2 * ln (expit v).
Proof. split; [apply logit_expit|apply expit_logit_logJ]. Qed.

Lemma logit_pair (v : R) :
  0 < v < 1 ->
  expit (logit v) = v /\
  - logit v + 2 * ln (expit (logit v)) = ln (v * (1 - v)).
Proof.
  intros H. split; [now apply expit_logit|now apply logit_expit_logJ].
Qed.

(** C2 — Inverse-pair exactness.  [Tanh_.backward] is [ArcTanh_().forward]
    and [Expit_.backward] is [Logit_().forward]; the forward maps of each
    pair undo one another (in both orders, on the domain of the first map),
    and the log-Jacobian that the second map adds at [y = f(x)] is the
    negative of the one that the first adds at [x]. *)
Theorem inverse_pair_exactness (E : Env) (self dual : attrs)
  (x log0 : tensor) :
  wf x ->
  sum_density dual = sum_density self ->
  backward E (Tanh_ self) x log0
    = forward E (ArcTanh_ (Module___init__ None)) x log0 /\
  backward E (Expit_ self) x log0
    = forward E (Logit_ (Module___init__ None)) x log0 /\
  (exists l,
     forward E (Tanh_ self) x (scalar 0) = Some (tmap tanh x, l) /\
     forward E (ArcTanh_ dual) (tmap tanh x) (scalar 0)
       = Some (x, tmap Ropp l)) /\
  (within (-1) 1 x ->
   exists l,
     forward E (ArcTanh_ self) x (scalar 0) = Some (tmap atanh x, l) /\
     forward E (Tanh_ dual) (tmap atanh x) (scalar 0)
       = Some (x, tmap Ropp l)) /\
  (exists l,
     forward E (Expit_ self) x (scalar 0) = Some (tmap expit x, l) /\
     forward E (Logit_ dual) (tmap expit x) (scalar 0)
       = Some (x, tmap Ropp l)) /\
  (within 0 1 x ->
   exists l,
     forward E (Logit_ self) x (scalar 0) = Some (tmap logit x, l) /\
     forward E (Expit_ dual) (tmap logit x) (scalar 0)
       = Some (x, tmap Ropp l)).
Proof.
  intros Hx Hd. cbn [forward backward].
  split; [reflexivity|]. split; [reflexivity|].
  rewrite !Tanh__forward_elementwise, !ArcTanh__forward_elementwise.
  rewrite !Expit__forward_elementwise, !Logit__forward_elementwise
    by (try apply wf_tmap; assumption).
  rewrite Hd.
  split; [|split; [|split]].
  - apply elementwise_opposite; [assumption| |intros s; lra].
    intros v _. apply tanh_pair.
  - intros Hdom.
    apply elementwise_opposite; [assumption| |intros s; lra].
    intros v Hv. apply atanh_pair. now apply within_In with x.
  - apply elementwise_opposite; [assumption| |intros s; lra].
    intros v _. apply expit_pair.
  - intros Hdom.
    apply elementwise_opposite; [assumption| |intros s; lra].
    intros v Hv. apply logit_pair. now apply within_In with x.
Qed.

Lemma inverse_pair_exactness_witness :
  wf sample_1x2 /\
  sum_density (Module___init__ None) = sum_density (Module___init__ None) /\
  backward scalar_mode (Tanh_ (Module___init__ None)) sample_1x2 (scalar 0)
    = forward scalar_mode (ArcTanh_ (Module___init__ None)) sample_1x2
        (scalar 0).
Proof.
  split; [reflexivity|]. split; [reflexivity|].
  exact (proj1 (inverse_pair_exactness scalar_mode (Module___init__ None)
                  (Module___init__ None) sample_1x2 (scalar 0)
                  eq_refl eq_refl)).
Defined.

(** ** The distribution convertor *)

(** C5 — Assembly.  For [knots_len > 1] the module list is the optional
    [SgnBiasNet_], the optional initial [ScaleNet_], then [Expit_],
    [SplineNet_], [Logit_], then the optional final [ScaleNet_]; the spline
    is configured on the unit interval, or on [(0.5, 1)] with an
    anti-symmetric left extrapolation when [symmetric]; a requested
    [SgnBiasNet_] is the first module of the list. *)
Theorem DistConvertor__assembly (k : Z) (symmetric : bool)
  (label : string) (sgnbias initial_scale final_scale : bool)
  (kw_spline_shape : list nat) (rand : R) :
  (k > 1)%Z ->
  exists cfg,
    nets_ (DistConvertor___init__ k symmetric label sgnbias
             initial_scale final_scale kw_spline_shape rand)
    = (if sgnbias then [SgnBiasNet___init__ [1%nat] [rand] "sgnbias_"]
       else [])
      ++ (if initial_scale then [ScaleNet___init__ "scale_"] else [])
      ++ spline_triple cfg
      ++ (if negb initial_scale && final_scale
          then [ScaleNet___init__ "scale_"] else [])
    /\ knots_len cfg = k
    /\ spline_shape cfg = kw_spline_shape
    /\ xlim cfg = (if symmetric then (0.5, 1) else (0, 1))
    /\ ylim cfg = (if symmetric then (0.5, 1) else (0, 1))
    /\ extrap cfg
       = (if symmetric then Some [("left", "anti")]%string else None)
    /\ (sgnbias = true ->
        hd_error (nets_ (DistConvertor___init__ k symmetric label
                           sgnbias initial_scale final_scale
                           kw_spline_shape rand))
        = Some (SgnBiasNet___init__ [1%nat] [rand] "sgnbias_")).
Proof.
  intros Hk. apply Z.gt_lt, Z.gtb_lt in Hk.
  unfold DistConvertor___init__. rewrite Hk. cbn [nets_].
  destruct symmetric;
    (eexists; split;
     [ destruct sgnbias, initial_scale, final_scale; reflexivity
     | repeat split; intros ->; reflexivity ]).
Qed.

Lemma DistConvertor__assembly_witness :
  (2 > 1)%Z /\
  exists cfg,
    nets_ (DistConvertor___init__ 2 true "dc_" true true true [] (1 / 2))
    = [SgnBiasNet___init__ [1%nat] [1 / 2] "sgnbias_"]
      ++ [ScaleNet___init__ "scale_"] ++ spline_triple cfg ++ []
    /\ xlim cfg = (0.5, 1).
Proof.
  split; [reflexivity|].
  destruct (DistConvertor__assembly 2 true "dc_" true true true []
              (1 / 2) eq_refl) as [cfg [H1 [_ [_ [H2 _]]]]].
  exists cfg. split; [exact H1|exact H2].
Defined.

(** C6 — Degenerate convertor.  With [knots_len = 1] and no optional stage
    the module list is empty, and [forward] and [backward] return their
    arguments. *)
Theorem degenerate_convertor_is_identity (E : Env) (symmetric : bool)
  (label : string) (kw_spline_shape : list nat) (rand : R)
  (x log0 : tensor) :
  let dc := DistConvertor___init__ 1 symmetric label false false false
              kw_spline_shape rand in
  nets_ dc = [] /\
  DistConvertor__forward E dc x log0 = Some (x, log0) /\
  DistConvertor__backward E dc x log0 = Some (x, log0).
Proof. repeat split. Qed.

(** C10 — The two scale options.  With [initial_scale] the value of
    [final_scale] plays no role: the one [ScaleNet_] stands before the
    triple, and no choice of options yields two [ScaleNet_] stages. *)
Theorem scale_stages_exclusive (knots_len : Z) (symmetric : bool)
  (label : string) (sgnbias initial_scale final_scale : bool)
  (kw_spline_shape : list nat) (rand : R) :
  let build := fun ini fin =>
    nets_ (DistConvertor___init__ knots_len symmetric label sgnbias
             ini fin kw_spline_shape rand) in
  build true true = build true false /\
  (exists tail,
     build true true
     = (if sgnbias then [SgnBiasNet___init__ [1%nat] [rand] "sgnbias_"]
        else [])
       ++ ScaleNet___init__ "scale_" :: tail
     /\ (tail = [] \/ exists cfg, tail = spline_triple cfg)) /\
  (length (filter is_ScaleNet_ (build initial_scale final_scale)) <= 1)%nat.
Proof.
  cbv zeta. unfold DistConvertor___init__. cbn [nets_].
  split; [reflexivity|]. split.
  - destruct (knots_len >? 1)%Z.
    + eexists. split; [destruct sgnbias; reflexivity|].
      right. eexists. reflexivity.
    + exists []. split; [destruct sgnbias; reflexivity|now left].
  - destruct (knots_len >? 1)%Z, sgnbias, initial_scale, final_scale;
      cbn; lia.
Qed.

(** ** Lookup by label *)

Lemma label_is_true (tag : string) (m : Module_) :
  label_is tag m = true <-> label_of m = Some tag.
Proof.
  unfold label_is. destruct (label_of m) as [l|].
  - rewrite String.eqb_eq. split; [now intros ->|now intros [= ->]].
  - split; discriminate.
Qed.

Lemma label_is_false (tag : string) (m : Module_) :
  label_is tag m = false <-> label_of m <> Some tag.
Proof.
  rewrite <- label_is_true. now destruct (label_is tag m).
Qed.

Lemma scan_label_Some (tag : string) (nets : list Module_) (m : Module_) :
  scan_label tag nets = Some m <-> first_labelled tag nets m.
Proof.
  unfold first_labelled. induction nets as [|n nets IH]; simpl.
  - split; [discriminate|]. intros [before [after [H _]]].
    now destruct before.
  - destruct (label_is tag n) eqn:Hn.
    + apply label_is_true in Hn. split.
      * intros [= ->]. exists [], nets. now repeat split.
      * intros [before [after [H [Hm Hb]]]].
        destruct before as [|b before]; simpl in H.
        -- now injection H as -> _.
        -- injection H as -> _. inversion Hb; subst. contradiction.
    + apply label_is_false in Hn. rewrite IH. split.
      * intros [before [after [H [Hm Hb]]]].
        exists (n :: before), after. subst nets.
        repeat split; [assumption|now constructor].
      * intros [before [after [H [Hm Hb]]]].
        destruct before as [|b before]; simpl in H.
        -- injection H as -> _. contradiction.
        -- injection H as -> ->. exists before, after.
           inversion Hb; subst. now repeat split.
Qed.

Lemma scan_label_None (tag : string) (nets : list Module_) :
  scan_label tag nets = None <-> none_labelled tag nets.
Proof.
  unfold none_labelled. induction nets as [|n nets IH]; simpl.
  - split; [constructor|reflexivity].
  - destruct (label_is tag n) eqn:Hn.
    + apply label_is_true in Hn. split; [discriminate|].
      intros H. inversion H; subst. contradiction.
    + apply label_is_false in Hn. rewrite IH. split.
      * now constructor.
      * intros H. now inversion H.
Qed.

(** C9 — Tagged lookup.  Each accessor returns the first module of the list
    that carries its label, and [None] exactly when no module carries it;
    [cdf_mapper] runs the [forward] of the module labelled ['spline_'] on
    [cdf], whatever stands before or after it in the list. *)
Theorem tagged_lookup (E : Env) (self : DistConvertor_) (cdf : tensor) :
  (forall m, get_spline_ self = Some m
             <-> first_labelled "spline_" (nets_ self) m) /\
  (forall m, get_scale_ self = Some m
             <-> first_labelled "scale_" (nets_ self) m) /\
  (forall m, get_sgnbias_ self = Some m
             <-> first_labelled "sgnbias_" (nets_ self) m) /\
  (get_spline_ self = None <-> none_labelled "spline_" (nets_ self)) /\
  (get_scale_ self = None <-> none_labelled "scale_" (nets_ self)) /\
  (get_sgnbias_ self = None <-> none_labelled "sgnbias_" (nets_ self)) /\
  (forall m, first_labelled "spline_" (nets_ self) m ->
             cdf_mapper E self cdf = forward E m cdf (scalar 0)) /\
  (none_labelled "spline_" (nets_ self) -> cdf_mapper E self cdf = None).
Proof.
  unfold cdf_mapper, get_spline_, get_scale_, get_sgnbias_.
  split; [intros m; apply scan_label_Some|].
  split; [intros m; apply scan_label_Some|].
  split; [intros m; apply scan_label_Some|].
  split; [apply scan_label_None|].
  split; [apply scan_label_None|].
  split; [apply scan_label_None|].
  split.
  - intros m Hm. apply scan_label_Some in Hm. now rewrite Hm.
  - intros Hn. apply scan_label_None in Hn. now rewrite Hn.
Qed.

(** The accessors on a convertor with every stage, and on the degenerate
    one. *)
Lemma lookup_in_assembled_convertor :
  let dc := DistConvertor___init__ 4 false "dc_" true true false []
              (1 / 2) in
  get_sgnbias_ dc = Some (SgnBiasNet___init__ [1%nat] [1 / 2] "sgnbias_") /\
  get_scale_ dc = Some (ScaleNet___init__ "scale_") /\
  get_spline_ dc
  = Some (SplineNet___init__ "spline_" (mkConfig 4 (0, 1) (0, 1) None [])) /\
  get_spline_ (DistConvertor___init__ 1 false "dc_" false true false []
                 (1 / 2)) = None.
Proof. repeat split. Qed.

(** ** The spline module *)

(** C8 — Spline-based transform.  For whatever spline the module builds,
    [forward] evaluates it at [x], through a flattened [x] whose shape is
    restored afterwards exactly when [spline_shape] has rank zero, and
    returns the value with [log0 + reduce(log(grad))]; [backward] does the
    same with the inverse evaluation of the spline. *)
Theorem SplineNet__transform (E : Env) (self : attrs)
  (cfg : SplineNet_config) (x log0 : tensor) :
  forward E (SplineNet_ self cfg) x log0
  = spec_spline_transform (call_sum_density E (sum_density self))
      (length (spline_shape cfg)) (spline_call (make_spline E cfg)) x log0
  /\
  backward E (SplineNet_ self cfg) x log0
  = spec_spline_transform (call_sum_density E (sum_density self))
      (length (spline_shape cfg)) (spline_backward (make_spline E cfg))
      x log0.
Proof.
  cbn [forward backward].
  unfold SplineNet__forward, SplineNet__backward, SplineNet__apply,
    spec_spline_transform.
  destruct (spline_shape cfg) as [|d s]; cbn [length Nat.ltb Nat.leb Nat.eqb].
  - split.
    + destruct (spline_call (make_spline E cfg) (ravel x)) as [[fx g]|];
        [|reflexivity].
      cbn [bind]. destruct (reshape fx (shape x)); [|reflexivity].
      cbn [bind]. destruct (reshape g (shape x)); reflexivity.
    + destruct (spline_backward (make_spline E cfg) (ravel x)) as [[fx g]|];
        [|reflexivity].
      cbn [bind]. destruct (reshape fx (shape x)); [|reflexivity].
      cbn [bind]. destruct (reshape g (shape x)); reflexivity.
  - split.
    + destruct (spline_call (make_spline E cfg) x) as [[fx g]|]; reflexivity.
    + destruct (spline_backward (make_spline E cfg) x) as [[fx g]|];
        reflexivity.
Qed.

(** ** Shapes of the log-Jacobian *)

Lemma wf_ones (s : list nat) : wf (ones s).
Proof. unfold wf, ones. cbn [shape data]. apply repeat_length. Qed.

Lemma all_equal_map_repeat (f : R -> R) (c r : R) (n : nat) (s : list nat) :
  f c = r -> all_equal r (mkT s (map f (repeat c n))).
Proof.
  intros H. unfold all_equal. cbn [data]. apply Forall_forall.
  intros v Hv. apply in_map_iff in Hv. destruct Hv as [u [Hu Hin]].
  apply repeat_spec in Hin. now subst.
Qed.

Lemma ScaleNet__log_jacobian_density (E : Env) (logw : R) (s : list nat) :
  propagate_density E = true -> s <> [] ->
  ScaleNet__log_jacobian E logw s = Some (tmap (Rmult logw) (ones s)).
Proof.
  intros Hp Hs. unfold ScaleNet__log_jacobian, tmul, logw_tensor.
  rewrite Hp. apply tbin_one_l; [apply wf_ones|assumption].
Qed.

Lemma ScaleNet__log_jacobian_scalar (E : Env) (logw : R) (b : nat)
  (rest : list nat) :
  propagate_density E = false ->
  ScaleNet__log_jacobian E logw (b :: rest)
  = Some (tmap (Rmult (logw * INR (numel rest))) (ones [b])).
Proof.
  intros Hp. unfold ScaleNet__log_jacobian, tmul, logw_tensor.
  rewrite Hp. cbn [tl tmap shape data map].
  apply tbin_one_l; [apply wf_ones|discriminate].
Qed.

Lemma shape_call_sum_density (E : Env) (t : tensor) (b : nat)
  (rest : list nat) :
  shape t = b :: rest ->
  shape (call_sum_density E ClassReduction t)
  = if propagate_density E then b :: rest else [b].
Proof. apply shape_Module__sum_density. Qed.

Lemma elementwise_shape (E : Env) (f g k : R -> R) (x : tensor) (b : nat)
  (rest : list nat) :
  wf x -> shape x = b :: rest ->
  exists l,
    elementwise E ClassReduction f g k x (scalar 0) = Some (tmap f x, l) /\
    shape l = if propagate_density E then shape x else [b].
Proof.
  intros Hx Hs. unfold elementwise, tadd.
  rewrite tbin_scalar_l
    by (apply wf_tmap, wf_call_sum_density, wf_tmap, Hx).
  eexists. split; [reflexivity|].
  cbn [tmap shape]. rewrite (shape_call_sum_density E _ b rest) by exact Hs.
  now rewrite Hs.
Qed.

(** C7 — Density-mode shape consistency.  For a sample [x] with batch axis
    [b], the term that [ScaleNet_.log_jacobian] returns is [logw] on the
    shape of [x] when densities are propagated, and otherwise one entry per
    batch item, each [logw] times the number of non-batch elements; the
    term that [Tanh_], [ArcTanh_], [Expit_] and [Logit_] add to [log0 = 0]
    has the shape of [x], respectively the shape [[b]]. *)
Theorem density_mode_shape_consistency (E : Env) (logw : R) (x : tensor)
  (b : nat) (rest : list nat) (label : option string) :
  wf x -> shape x = b :: rest ->
  (exists lj,
     ScaleNet__log_jacobian E logw (shape x) = Some lj /\ wf lj /\
     if propagate_density E
     then shape lj = shape x /\ all_equal logw lj
     else shape lj = [b] /\ all_equal (logw * INR (numel rest)) lj) /\
  (forall M, In M [Tanh_; ArcTanh_; Expit_; Logit_] ->
     exists y l,
       forward E (M (Module___init__ label)) x (scalar 0) = Some (y, l) /\
       shape l = if propagate_density E then shape x else [b]).
Proof.
  intros Hx Hs. split.
  - rewrite Hs. destruct (propagate_density E) eqn:Hp.
    + rewrite ScaleNet__log_jacobian_density by (assumption || discriminate).
      eexists. split; [reflexivity|].
      split; [apply wf_tmap, wf_ones|]. split; [reflexivity|].
      apply all_equal_map_repeat. lra.
    + rewrite ScaleNet__log_jacobian_scalar by assumption.
      eexists. split; [reflexivity|].
      split; [apply wf_tmap, wf_ones|]. split; [reflexivity|].
      apply all_equal_map_repeat. lra.
  - intros M HM. cbn [In] in HM.
    destruct HM as [<-|[<-|[<-|[<-|[]]]]]; cbn [forward].
    + rewrite Tanh__forward_elementwise. eexists.
      now apply elementwise_shape with rest.
    + rewrite ArcTanh__forward_elementwise. eexists.
      now apply elementwise_shape with rest.
    + rewrite Expit__forward_elementwise by assumption. eexists.
      now apply elementwise_shape with rest.
    + rewrite Logit__forward_elementwise by assumption. eexists.
      now apply elementwise_shape with rest.
Qed.

Lemma density_mode_shape_consistency_witness :
  wf sample_1x2 /\ shape sample_1x2 = [1%nat; 2%nat] /\
  exists lj,
    ScaleNet__log_jacobian scalar_mode (1 / 3) (shape sample_1x2) = Some lj /\
    wf lj /\ shape lj = [1%nat] /\ all_equal (1 / 3 * INR (numel [2%nat])) lj.
Proof.
  split; [reflexivity|]. split; [reflexivity|].
  destruct (proj1 (density_mode_shape_consistency scalar_mode (1 / 3)
                     sample_1x2 1 [2%nat] None eq_refl eq_refl))
    as [lj [H1 [H2 H3]]].
  exists lj. split; [exact H1|]. split; [exact H2|exact H3].
Defined.

(** ** The masked wrapper *)

Lemma sum_density_of_set (m : Module_) (f : sum_density_attr) :
  sum_density_of (set_sum_density m f) = f.
Proof. now destruct m. Qed.

Lemma call_sum_density_per_element (E : Env) (f : sum_density_attr)
  (d : tensor) :
  call_sum_density (per_element E) f d = d.
Proof. now destruct f. Qed.

(** Under the override the inner [forward] returns the density that the
    module computes when densities are propagated per element. *)
Lemma forward_under_override (E : Env) (m : Module_) (x log0 : tensor) :
  reduces_through_attribute m = true ->
  forward E (set_sum_density m IdentityLambda) x log0
  = forward (per_element E) m x log0.
Proof.
  destruct m; try discriminate; intros _; cbn [set_sum_density forward];
    try reflexivity.
  - unfold Tanh__forward. cbn [sum_density call_sum_density].
    now rewrite call_sum_density_per_element.
  - unfold ArcTanh__forward. cbn [sum_density call_sum_density].
    now rewrite call_sum_density_per_element.
  - unfold Expit__forward. cbn [sum_density call_sum_density].
    destruct (tadd _ _); [|reflexivity]. cbn [bind].
    now rewrite call_sum_density_per_element.
  - unfold Logit__forward. cbn [sum_density call_sum_density].
    destruct (tdiv _ _); [|reflexivity]. cbn [bind].
    destruct (tmul _ _); [|reflexivity]. cbn [bind].
    now rewrite call_sum_density_per_element.
  - unfold SplineNet__forward, SplineNet__apply.
    cbn [sum_density call_sum_density per_element make_spline].
    destruct (if Nat.ltb 0 (length (spline_shape cfg)) then _ else _)
      as [[fx g]|]; [|reflexivity].
    cbn [bind]. now rewrite call_sum_density_per_element.
Qed.

Lemma backward_under_override (E : Env) (m : Module_) (x log0 : tensor) :
  backward_reduces_through_attribute m = true ->
  backward E (set_sum_density m IdentityLambda) x log0
  = backward (per_element E) m x log0.
Proof.
  destruct m; try discriminate; intros _; cbn [set_sum_density backward];
    try reflexivity.
  unfold SplineNet__backward, SplineNet__apply.
  cbn [sum_density call_sum_density per_element make_spline].
  destruct (if Nat.ltb 0 (length (spline_shape cfg)) then _ else _)
    as [[fx g]|]; [|reflexivity].
  cbn [bind]. now rewrite call_sum_density_per_element.
Qed.

(** The [backward] of the four saturating modules, and both directions of
    [ScaleNet_], do not read the attribute of the instance: the override
    leaves them as they were. *)
Lemma override_not_read (E : Env) (m : Module_) (x log0 : tensor)
  (f : sum_density_attr) :
  match m with
  | Tanh_ _ | ArcTanh_ _ | Expit_ _ | Logit_ _ =>
      backward E (set_sum_density m f) x log0 = backward E m x log0
  | ScaleNet_ _ _ =>
      backward E (set_sum_density m f) x log0 = backward E m x log0 /\
      forward E (set_sum_density m f) x log0 = forward E m x log0
  | _ => True
  end.
Proof. destruct m; try exact I; try reflexivity. now split. Qed.

Lemma spec_masked_transform_ext (mask : Mask)
  (inner inner' : tensor -> tensor -> option (tensor * tensor))
  (reduce : tensor -> tensor) (x log0 : tensor) :
  (forall a l, inner a l = inner' a l) ->
  spec_masked_transform mask inner reduce x log0
  = spec_masked_transform mask inner' reduce x log0.
Proof.
  intros H. unfold spec_masked_transform.
  destruct (split mask x) as [[a f]|]; [|reflexivity].
  cbn [bind]. now rewrite H.
Qed.

Lemma wrapper_is_spec_masked_transform (E : Env) (self : attrs)
  (net_ : Module_) (mask : Mask) (orig : sum_density_attr)
  (x log0 : tensor) :
  forward E (MaskedWrapperNet_ self net_ mask orig) x log0
  = spec_masked_transform mask (forward E net_) (call_sum_density E orig)
      x log0 /\
  backward E (MaskedWrapperNet_ self net_ mask orig) x log0
  = spec_masked_transform mask (backward E net_) (call_sum_density E orig)
      x log0.
Proof. split; reflexivity. Qed.



(** [ScaleNet_] with [logw = 1] under a mask that freezes the second site:
    in scalar mode the inner call returns the density already summed per
    batch item, [2] for each, and the wrapper's purification cannot take the
    frozen site out of it; the per-element density, purified and then
    reduced, is [1] for each batch item. *)
Lemma wrapped_scale_density :
  exists W net_' y l y' l',
    MaskedWrapperNet___init__
      (ScaleNet_ (Module___init__ (Some "scale_"%string)) 1)
      (lane_mask mask_2x2) = Some (W, net_') /\
    forward scalar_mode W sample_2x2 (scalar 0) = Some (y, l) /\
    spec_masked_transform (lane_mask mask_2x2)
      (forward (per_element scalar_mode)
         (ScaleNet_ (Module___init__ (Some "scale_"%string)) 1))
      (call_sum_density scalar_mode ClassReduction) sample_2x2 (scalar 0)
    = Some (y', l') /\
    shape l = [2%nat] /\ shape l' = [2%nat] /\
    length (data l) = 2%nat /\ length (data l') = 2%nat /\
    all_equal 2 l /\ all_equal 1 l'.
Proof.
  do 6 eexists.
  split; [reflexivity|]. split; [reflexivity|]. split; [reflexivity|].
  split; [reflexivity|]. split; [reflexivity|].
  split; [reflexivity|]. split; [reflexivity|].
  split; repeat constructor; cbn; lra.
Qed.


(** *** Frozen lanes *)

Lemma wrapper_forward_inversion (E : Env) (self : attrs) (net_ : Module_)
  (mask : Mask) (orig : sum_density_attr) (x log0 y l : tensor) :
  forward E (MaskedWrapperNet_ self net_ mask orig) x log0 = Some (y, l) ->
  exists xa xf a ljd p,
    split mask x = Some (xa, xf) /\
    forward E net_ xa (scalar 0) = Some (a, ljd) /\
    purify mask a 0 = Some p /\
    cat mask p xf = Some y.
Proof.
  intros H. cbn [forward] in H.
  destruct (split mask x) as [[xa xf]|] eqn:Hs; [|discriminate].
  cbn [bind] in H.
  destruct (forward E net_ xa (scalar 0)) as [[a ljd]|] eqn:Hn;
    [|discriminate].
  cbn [bind] in H.
  destruct (purify mask a 0) as [p|] eqn:Hp; [|discriminate].
  cbn [bind] in H.
  destruct (purify mask ljd 0) as [q|]; [|discriminate]. cbn [bind] in H.
  destruct (cat mask p xf) as [y'|] eqn:Hc; [|discriminate].
  cbn [bind] in H.
  destruct (tadd log0 _) as [l'|]; [|discriminate]. cbn [bind] in H.
  injection H as -> ->. now exists xa, xf, a, ljd, p.
Qed.

Lemma wrapper_backward_inversion (E : Env) (self : attrs) (net_ : Module_)
  (mask : Mask) (orig : sum_density_attr) (x log0 y l : tensor) :
  backward E (MaskedWrapperNet_ self net_ mask orig) x log0 = Some (y, l) ->
  exists xa xf a ljd p,
    split mask x = Some (xa, xf) /\
    backward E net_ xa (scalar 0) = Some (a, ljd) /\
    purify mask a 0 = Some p /\
    cat mask p xf = Some y.
Proof.
  intros H. cbn [backward] in H.
  destruct (split mask x) as [[xa xf]|] eqn:Hs; [|discriminate].
  cbn [bind] in H.
  destruct (backward E net_ xa (scalar 0)) as [[a ljd]|] eqn:Hn;
    [|discriminate].
  cbn [bind] in H.
  destruct (purify mask a 0) as [p|] eqn:Hp; [|discriminate].
  cbn [bind] in H.
  destruct (purify mask ljd 0) as [q|]; [|discriminate]. cbn [bind] in H.
  destruct (cat mask p xf) as [y'|] eqn:Hc; [|discriminate].
  cbn [bind] in H.
  destruct (tadd log0 _) as [l'|]; [|discriminate]. cbn [bind] in H.
  injection H as -> ->. now exists xa, xf, a, ljd, p.
Qed.

(** What the mask contract gives for one pass through the wrapper: the
    purified active part is null on a frozen lane, so that [cat] takes the
    lane from the frozen part, which holds the element of [x]. *)
Lemma recombined_frozen_lane (mask : Mask) (frozen_lane : nat -> Prop)
  (x xa xf a p y : tensor) (i : nat) :
  mask_contract mask frozen_lane ->
  split mask x = Some (xa, xf) ->
  purify mask a 0 = Some p ->
  cat mask p xf = Some y ->
  frozen_lane i ->
  nth i (data y) 0 = nth i (data x) 0.
Proof.
  intros C Hs Hp Hc Hi.
  rewrite (cat_frozen_lane _ _ C _ _ _ _ Hc Hi
             (purify_nulls _ _ C _ _ _ Hp Hi)).
  symmetry.
  exact (cat_frozen_lane _ _ C _ _ _ _ (split_then_cat _ _ C _ _ _ Hs) Hi
           (active_part_null _ _ C _ _ _ _ Hs Hi)).
Qed.


(** *** The lane masks and the mask laws *)

Lemma same_shape_eq (s t : list nat) : same_shape s t = true -> s = t.
Proof.
  revert t; induction s as [|a s IH]; intros [|b t] H; simpl in H;
    try discriminate; [reflexivity|].
  apply andb_prop in H. destruct H as [Hab Hst].
  apply Nat.eqb_eq in Hab. subst. f_equal. now apply IH.
Qed.

Lemma fits_inv (m x : tensor) :
  fits m x = true ->
  shape x = shape m /\ length (data x) = length (data m).
Proof.
  unfold fits. intros H. apply andb_prop in H. destruct H as [H1 H2].
  split; [now apply same_shape_eq|now apply Nat.eqb_eq].
Qed.

Lemma zipWith_length_l (f : R -> R -> R) (l1 l2 : list R) :
  length l2 = length l1 -> length (zipWith f l1 l2) = length l1.
Proof. intros H. apply zipWith_length. now symmetry. Qed.

Lemma active_plus_frozen (m d : list R) :
  length d = length m ->
  zipWith Rplus (zipWith Rmult m d) (zipWith (fun u v => (1 - u) * v) m d)
  = d.
Proof.
  revert d; induction m as [|u m IH]; intros [|v d] H; simpl in *;
    try discriminate; [reflexivity|].
  f_equal; [ring|]. apply IH. now injection H.
Qed.

Lemma checked_lane_mask_split_cat (m : tensor) :
  split_cat_identity (checked_lane_mask m).
Proof.
  intros x a f Hs. cbn [split cat checked_lane_mask] in *.
  destruct (fits m x) eqn:Hx; [|discriminate].
  injection Hs as <- <-.
  destruct (fits_inv m x Hx) as [Hshape Hlen].
  unfold fits in *. cbn [shape data].
  rewrite !zipWith_length_l by assumption.
  rewrite Nat.eqb_refl.
  apply andb_prop in Hx. destruct Hx as [-> _]. cbn [andb].
  rewrite active_plus_frozen by assumption. now destruct x.
Qed.

Lemma mask_1x2_binary : Forall (fun u => u = 0 \/ u = 1) (data mask_1x2).
Proof.
  unfold mask_1x2. cbn [data].
  constructor; [now right|]. constructor; [now left|]. constructor.
Qed.

Lemma pick_length (b : list bool) (a f : list R) :
  length a = length b -> length f = length b ->
  length (pick b a f) = length b.
Proof.
  revert a f; induction b as [|c b IH]; intros [|u a] [|v f] Ha Hf;
    simpl in *; try discriminate; [reflexivity|].
  f_equal. apply IH; [now injection Ha|now injection Hf].
Qed.

Lemma nth_pick (b : list bool) (a f : list R) (i : nat) :
  length a = length b -> length f = length b ->
  nth i (pick b a f) 0 = if nth i b true then nth i a 0 else nth i f 0.
Proof.
  revert a f i; induction b as [|c b IH]; intros [|u a] [|v f] i Ha Hf;
    simpl in *; try discriminate.
  - now destruct i.
  - destruct i as [|i]; [reflexivity|].
    apply IH; [now injection Ha|now injection Hf].
Qed.

Lemma pick_parts (b : list bool) (x : list R) :
  length x = length b ->
  pick b (pick b x (repeat 0 (length x))) (pick b (repeat 0 (length x)) x)
  = x.
Proof.
  revert x; induction b as [|c b IH]; intros [|v x] H; simpl in *;
    try discriminate; [reflexivity|].
  f_equal; [now destruct c|]. apply IH. now injection H.
Qed.

Lemma fits_lanes_inv (s : list nat) (b : list bool) (x : tensor) :
  fits_lanes s b x = true -> shape x = s /\ length (data x) = length b.
Proof.
  unfold fits_lanes. intros H. apply andb_prop in H. destruct H as [H1 H2].
  split; [now apply same_shape_eq|now apply Nat.eqb_eq].
Qed.

Lemma fits_lanes_intro (s : list nat) (b : list bool) (x : tensor) :
  fits_lanes s b x = true -> forall d,
  length d = length b -> fits_lanes s b (mkT (shape x) d) = true.
Proof.
  unfold fits_lanes. intros H d Hd. apply andb_prop in H.
  cbn [shape data]. destruct H as [-> _]. cbn [andb]. now apply Nat.eqb_eq.
Qed.

(** The selecting mask keeps the mask contract, for the lanes on which its
    list of booleans is [false]. *)
Lemma select_mask_contract (s : list nat) (b : list bool) :
  mask_contract (select_mask s b) (frozen_in b).
Proof.
  constructor.
  - intros x a f Hs. cbn [split cat select_mask] in *.
    destruct (fits_lanes s b x) eqn:Hx; [|discriminate].
    injection Hs as <- <-.
    destruct (fits_lanes_inv _ _ _ Hx) as [_ Hl].
    rewrite !(fits_lanes_intro s b x Hx)
      by (apply pick_length; rewrite ?repeat_length; assumption).
    cbn [andb shape data]. rewrite pick_parts by assumption.
    now destruct x.
  - intros x a f i Hs Hi. cbn [split select_mask] in Hs.
    destruct (fits_lanes s b x) eqn:Hx; [|discriminate].
    injection Hs as <- _. cbn [data].
    destruct (fits_lanes_inv _ _ _ Hx) as [_ Hl].
    rewrite nth_pick by (rewrite ?repeat_length; assumption).
    unfold frozen_in in Hi. rewrite Hi. apply nth_repeat.
  - intros v p i Hp Hi. cbn [purify select_mask Nat.eqb] in Hp.
    destruct (fits_lanes s b v) eqn:Hv; [|discriminate].
    injection Hp as <-. cbn [data].
    destruct (fits_lanes_inv _ _ _ Hv) as [_ Hl].
    rewrite nth_pick by (rewrite ?repeat_length; assumption).
    unfold frozen_in in Hi. rewrite Hi. apply nth_repeat.
  - intros a f y i Hc Hi _. cbn [cat select_mask] in Hc.
    destruct (fits_lanes s b a) eqn:Ha; [|discriminate].
    destruct (fits_lanes s b f) eqn:Hf; [|discriminate].
    cbn [andb] in Hc. injection Hc as <-. cbn [data].
    destruct (fits_lanes_inv _ _ _ Ha) as [_ Hla].
    destruct (fits_lanes_inv _ _ _ Hf) as [_ Hlf].
    rewrite nth_pick by assumption.
    unfold frozen_in in Hi. now rewrite Hi.
Qed.


(** ** Round trips *)

Lemma cosh_gt_1 (v : R) : v <> 0 -> 1 < cosh v.
Proof.
  intros Hv. unfold cosh. rewrite exp_Ropp.
  pose proof (exp_pos v) as Hp.
  assert (Hne : exp v <> 1).
  { intros H. apply Hv. apply exp_inv. now rewrite exp_0. }
  assert (Hsq : 0 < (exp v - 1) * (exp v - 1)).
  { destruct (Rtotal_order (exp v) 1) as [H|[H|H]]; [nra|contradiction|nra]. }
  assert (Hi : 0 < / exp v) by now apply Rinv_0_lt_compat.
  assert (He : exp v * / exp v = 1) by (apply Rinv_r; lra).
  nra.
Qed.

Lemma lncosh_pos (v : R) : v <> 0 -> 0 < lncosh v.
Proof.
  intros Hv. unfold lncosh. rewrite <- ln_1.
  apply ln_increasing; [lra|now apply cosh_gt_1].
Qed.

Lemma wrapped_tanh_init (mask : Mask) :
  MaskedWrapperNet___init__ (Tanh_ (Module___init__ (Some "tanh_"%string)))
    mask
  = Some (wrapped_tanh mask,
          Tanh_ (mkAttrs (Some "tanh_"%string) IdentityLambda)).
Proof. reflexivity. Qed.

(** Batch items and lanes of different number: the density that the dual
    module has already summed per batch item cannot be purified. *)
Lemma wrapped_tanh_backward_raises :
  exists y l,
    forward scalar_mode (wrapped_tanh (lane_mask mask_3)) sample_2x3
      (scalar 0) = Some (y, l) /\
    backward scalar_mode (wrapped_tanh (lane_mask mask_3)) y l = None.
Proof. do 2 eexists. split; reflexivity. Qed.

(** C1 — the failing round trip.  [MaskedWrapperNet_] around [Tanh_], in
    scalar mode, with as many batch items as lanes: [backward] applied to
    the result of [forward(x, 0)] returns a log-density whose second entry
    is [-2 log cosh 1], not zero.  [Tanh_.backward] builds a new [ArcTanh_]
    that reduces with the class's own [sum_density], so the density reaches
    the wrapper already summed per batch item. *)
Theorem wrapped_tanh_density_not_restored :
  exists y l z l2,
    forward scalar_mode (wrapped_tanh (lane_mask mask_2)) sample_2x2
      (scalar 0) = Some (y, l) /\
    backward scalar_mode (wrapped_tanh (lane_mask mask_2)) y l
      = Some (z, l2) /\
    shape l2 = [2%nat] /\
    nth 1 (data l2) 0 = -2 * lncosh 1 /\
    ~ all_equal 0 l2.
Proof.
  do 4 eexists. split; [reflexivity|]. split; [reflexivity|].
  split; [reflexivity|].
  assert (Hv : forall a b c : R,
             0 + (1 * (0 + -2 * lncosh (1 * 1)) + (0 * a + 0)) + (0 * b + c)
             = -2 * lncosh 1 + c).
  { intros a b c. replace (1 * 1) with 1 by lra. lra. }
  split.
  - cbn. etransitivity; [apply Hv|]. lra.
  - unfold all_equal. intros H. cbn in H.
    inversion H as [|? ? _ H2]. inversion H2 as [|? ? H3 _].
    rewrite Hv in H3. pose proof (lncosh_pos 1). lra.
Qed.

Lemma atanh_active_lane (v : R) :
  atanh (1 * (1 * tanh (1 * v) + (1 - 1) * v)) = v.
Proof.
  replace (1 * v) with v by lra.
  replace (1 * (1 * tanh v + (1 - 1) * v)) with (tanh v) by lra.
  apply atanh_tanh.
Qed.

(** The same wrapper on the same sample with densities propagated per
    element: the class's own reduction is then the identity as well, and
    the round trip gives the sample and a zero density back. *)
Lemma wrapped_tanh_density_mode_roundtrip :
  exists y l,
    forward density_mode (wrapped_tanh (lane_mask mask_2)) sample_2x2
      (scalar 0) = Some (y, l) /\
    backward density_mode (wrapped_tanh (lane_mask mask_2)) y l
      = Some (sample_2x2, zeros [2%nat; 2%nat]).
Proof.
  do 2 eexists. split; [reflexivity|].
  cbv -[Rplus Rmult Rminus Ropp Rinv Rdiv exp ln IZR tanh atanh lncosh cosh].
  rewrite !atanh_active_lane.
  replace (1 * 0) with 0 by lra. replace (1 * 1) with 1 by lra.
  do 2 f_equal; f_equal;
    repeat (apply f_equal2; [lra|]); reflexivity.
Qed.

(** *** The elementary modules *)

Lemma zipWith_map_l (f : R -> R -> R) (g : R -> R) (l : list R) :
  zipWith f (map g l) l = map (fun v => f (g v) v) l.
Proof.
  induction l as [|a l IH]; simpl; [reflexivity|].
  now rewrite IH.
Qed.

Lemma all_equal_scalar (c : R) : all_equal c (scalar c).
Proof. unfold all_equal, scalar. cbn [data]. now repeat constructor. Qed.

Lemma all_equal_tmap (f : R -> R) (c : R) (t : tensor) :
  (forall v, f v = c) -> all_equal c (tmap f t).
Proof.
  intros H. unfold all_equal, tmap. cbn [data]. apply Forall_forall.
  intros v Hv. apply in_map_iff in Hv. destruct Hv as [u [<- _]]. apply H.
Qed.

Lemma clone_id (x : tensor) : clone x = x.
Proof. now destruct x. Qed.

Lemma ScaleNet__log_jacobian_defined (E : Env) (logw : R) (s : list nat) :
  s <> [] ->
  exists lj, ScaleNet__log_jacobian E logw s = Some lj /\ wf lj.
Proof.
  intros Hs. destruct (propagate_density E) eqn:Hp.
  - rewrite ScaleNet__log_jacobian_density by assumption.
    eexists. split; [reflexivity|apply wf_tmap, wf_ones].
  - destruct s as [|b rest]; [now destruct Hs|].
    rewrite ScaleNet__log_jacobian_scalar by assumption.
    eexists. split; [reflexivity|apply wf_tmap, wf_ones].
Qed.

Lemma roundtrip_ScaleNet_ (E : Env) (self : attrs) (logw : R) (x : tensor)
  (c : R) :
  wf x -> shape x <> [] -> round_trip E (ScaleNet_ self logw) x c.
Proof.
  intros Hx Hs.
  destruct (ScaleNet__log_jacobian_defined E logw (shape x) Hs)
    as [lj [Hlj Hwf]].
  exists (tmap (fun v => v * exp logw) x), (tmap (Rplus c) lj),
         (tmap (fun v => c + v - v) lj).
  split; [|split].
  - cbn [forward]. unfold ScaleNet__forward, tmul, tadd.
    change (tmap exp (logw_tensor logw)) with (mkT [1%nat] [exp logw]).
    rewrite tbin_one_r by assumption. cbn [bind]. rewrite Hlj. cbn [bind].
    now rewrite tbin_scalar_l by assumption.
  - cbn [backward]. unfold ScaleNet__backward, tdiv, tsub.
    change (tmap exp (logw_tensor logw)) with (mkT [1%nat] [exp logw]).
    rewrite tbin_one_r by (try apply wf_tmap; assumption). cbn [bind].
    change (shape (tmap (fun v => v * exp logw) x)) with (shape x).
    rewrite Hlj. cbn [bind].
    rewrite tbin_same by (try apply wf_tmap; try reflexivity; assumption).
    cbn [bind]. f_equal. f_equal.
    + rewrite tmap_tmap. rewrite <- (tmap_id x) at 2.
      apply tmap_ext_in. intros v _.
      pose proof (exp_pos logw). field. lra.
    + unfold tmap. cbn [shape data]. now rewrite zipWith_map_l.
  - apply all_equal_tmap. intros v. lra.
Qed.

Lemma sgn_shift (v c : R) : 0 <= c -> sgn (v + sgn v * c) = sgn v.
Proof.
  intros Hc. unfold sgn at 2 3.
  destruct (total_order_T v 0) as [[H|H]|H]; unfold sgn;
    destruct (total_order_T _ 0) as [[H'|H']|H']; try reflexivity; nra.
Qed.

Lemma SgnBiasNet__bias (w0 : R) (t : tensor) :
  wf t -> shape t <> [] ->
  tmul (tmap sgn t) (tmap (fun v => v ^ 2) (mkT [1%nat] [w0]))
  = Some (tmap (fun v => sgn v * w0 ^ 2) t).
Proof.
  intros Ht Hs. unfold tmul.
  change (tmap (fun v => v ^ 2) (mkT [1%nat] [w0]))
    with (mkT [1%nat] [w0 ^ 2]).
  rewrite tbin_one_r by (try apply wf_tmap; assumption).
  now rewrite tmap_tmap.
Qed.

Lemma tbin_tmap_r (op : R -> R -> R) (g : R -> R) (t : tensor) :
  wf t -> tbin op t (tmap g t) = Some (tmap (fun v => op v (g v)) t).
Proof.
  intros Ht.
  rewrite tbin_same by (try apply wf_tmap; try reflexivity; assumption).
  unfold tmap. cbn [shape data]. now rewrite zipWith_map_r.
Qed.

Lemma roundtrip_SgnBiasNet_ (E : Env) (self : attrs) (w0 : R) (x : tensor)
  (c : R) :
  wf x -> shape x <> [] ->
  round_trip E (SgnBiasNet_ self (mkT [1%nat] [w0])) x c.
Proof.
  intros Hx Hs.
  exists (tmap (fun v => v + sgn v * w0 ^ 2) x), (scalar c), (scalar c).
  split; [|split].
  - cbn [forward]. unfold SgnBiasNet__forward, tadd.
    rewrite SgnBiasNet__bias by assumption. cbn [bind].
    now rewrite tbin_tmap_r by assumption.
  - cbn [backward]. unfold SgnBiasNet__backward, tsub.
    rewrite SgnBiasNet__bias by (try apply wf_tmap; assumption).
    cbn [bind]. rewrite tbin_tmap_r by now apply wf_tmap.
    cbn [bind]. do 2 f_equal. rewrite tmap_tmap.
    rewrite <- (tmap_id x) at 2. apply tmap_ext_in. intros v _.
    rewrite sgn_shift by (apply pow2_ge_0). lra.
  - apply all_equal_scalar.
Qed.

Lemma roundtrip_of_elementwise (E : Env) (m : Module_)
  (f1 g1 k1 f2 g2 k2 : R -> R) (x : tensor) (c : R) :
  wf x ->
  (forall log0, forward E m x log0
                = elementwise E ClassReduction f1 g1 k1 x log0) ->
  (forall y log0, wf y ->
     backward E m y log0 = elementwise E ClassReduction f2 g2 k2 y log0) ->
  (forall v, In v (data x) -> f2 (f1 v) = v /\ g2 (f1 v) = g1 v) ->
  (forall s, k1 s + k2 s = 0) ->
  round_trip E m x c.
Proof.
  intros Hx Hf Hb Hinv Hk.
  destruct (elementwise_roundtrip E ClassReduction f1 g1 k1 f2 g2 k2 x c
              Hx Hinv Hk) as [l1 [H1 [H2 _]]].
  exists (tmap f1 x), l1, (tmap (fun _ => c) l1).
  split; [|split].
  - now rewrite Hf.
  - rewrite Hb by now apply wf_tmap. exact H2.
  - now apply all_equal_tmap.
Qed.

(** X1 — Round trip of the elementary modules [Identity_], [Clone_],
    [ScaleNet_], [SgnBiasNet_], [Tanh_], [ArcTanh_], [Expit_], [Logit_]: on
    a sample in the domain of the map, [backward] applied to the result of
    [forward] returns the sample, and a log-density whose entries are all
    the number that [forward] was given. *)
Lemma roundtrip_elementary (E : Env) (m : Module_) (x : tensor) (c : R) :
  wf x -> shape x <> [] -> elementary m -> in_domain m x ->
  round_trip E m x c.
Proof.
  intros Hx Hs Hm Hd. destruct m; cbn [elementary in_domain] in Hm, Hd.
  - exists x, (scalar c), (scalar c).
    repeat split. apply all_equal_scalar.
  - exists (clone x), (scalar c), (scalar c).
    split; [reflexivity|]. split; [|apply all_equal_scalar].
    cbn [backward]. now rewrite !clone_id.
  - now apply roundtrip_ScaleNet_.
  - apply roundtrip_of_elementwise
      with tanh lncosh (Rmult (-2)) atanh (fun v => lncosh (atanh v))
           (Rmult 2); try assumption.
    + intros log0. cbn [forward].
      now rewrite Tanh__forward_elementwise, Hm.
    + intros y log0 _. cbn [backward]. unfold Tanh__backward.
      now rewrite ArcTanh__forward_elementwise.
    + intros v _. apply tanh_pair.
    + intros s. lra.
  - apply roundtrip_of_elementwise
      with atanh (fun v => lncosh (atanh v)) (Rmult 2) tanh lncosh
           (Rmult (-2)); try assumption.
    + intros log0. cbn [forward].
      now rewrite ArcTanh__forward_elementwise, Hm.
    + intros y log0 _. cbn [backward]. unfold ArcTanh__backward.
      now rewrite Tanh__forward_elementwise.
    + intros v Hv. apply atanh_pair. now apply within_In with x.
    + intros s. lra.
  - apply roundtrip_of_elementwise
      with expit (fun v => - v + 2 * ln (expit v)) (fun s => s) logit
           (fun v => ln (v * (1 - v))) Ropp; try assumption.
    + intros log0. cbn [forward].
      now rewrite Expit__forward_elementwise, Hm.
    + intros y log0 Hy. cbn [backward]. unfold Expit__backward.
      now rewrite Logit__forward_elementwise.
    + intros v _. apply expit_pair.
    + intros s. lra.
  - apply roundtrip_of_elementwise
      with logit (fun v => ln (v * (1 - v))) Ropp expit
           (fun v => - v + 2 * ln (expit v)) (fun s => s); try assumption.
    + intros log0. cbn [forward].
      now rewrite Logit__forward_elementwise, Hm.
    + intros y log0 Hy. cbn [backward]. unfold Logit__backward.
      now rewrite Expit__forward_elementwise.
    + intros v Hv. apply logit_pair. now apply within_In with x.
    + intros s. lra.
  - contradiction.
  - destruct Hm as [w0 ->]. now apply roundtrip_SgnBiasNet_.
  - contradiction.
Qed.

(** *** Pipelines *)

Lemma backward_each_app (E : Env) (l1 l2 : list Module_) (x log0 : tensor) :
  backward_each E (l1 ++ l2) x log0
  = let* (x', log0') := backward_each E l1 x log0 in
    backward_each E l2 x' log0'.
Proof.
  revert x log0; induction l1 as [|m l1 IH]; intros x log0; cbn.
  - reflexivity.
  - destruct (backward E m x log0) as [[x' l']|]; [|reflexivity].
    cbn [bind]. apply IH.
Qed.

(** Forward through a list and backward through its reverse gives the
    starting point back, as soon as each module inverts its own step. *)
Lemma ModuleList__roundtrip (E : Env) (nets : list Module_)
  (x log0 y l : tensor) :
  inverts_along E nets x log0 ->
  ModuleList__forward E nets x log0 = Some (y, l) ->
  ModuleList__backward E nets y l = Some (x, log0).
Proof.
  unfold ModuleList__backward.
  revert x log0; induction nets as [|m rest IH]; intros x log0 Hal Hf.
  - cbn in Hf. injection Hf as -> ->. reflexivity.
  - cbn [ModuleList__forward] in Hf.
    destruct (forward E m x log0) as [[x' l']|] eqn:Hm; [|discriminate].
    cbn [bind] in Hf. destruct (Hal x' l' Hm) as [Hb Hrest].
    cbn [rev]. rewrite backward_each_app.
    rewrite (IH x' l' Hrest Hf). cbn [bind backward_each].
    now rewrite Hb.
Qed.

(** *** The spline module, for an evaluator that keeps its contract *)

Lemma Rsum_opp (l : list R) : Rsum (map Ropp l) = - Rsum l.
Proof.
  induction l as [|a l IH]; cbn; [lra|].
  fold (Rsum (map Ropp l)) (Rsum l). rewrite IH. lra.
Qed.

Lemma chunks_map (f : R -> R) (k m : nat) (l : list R) :
  chunks k m (map f l) = map (map f) (chunks k m l).
Proof.
  revert l; induction m as [|m IH]; intros l; cbn; [reflexivity|].
  now rewrite firstn_map, skipn_map, IH.
Qed.

Lemma sum_nonbatch_opp (t : tensor) :
  sum_nonbatch (tmap Ropp t) = tmap Ropp (sum_nonbatch t).
Proof.
  unfold sum_nonbatch. cbn [tmap shape data].
  destruct (shape t) as [|b rest] eqn:Hs.
  - unfold tmap. now rewrite Hs.
  - unfold tmap. cbn [shape data]. f_equal.
    rewrite chunks_map, !map_map. apply map_ext. intros c. apply Rsum_opp.
Qed.

Lemma call_sum_density_opp (E : Env) (f : sum_density_attr) (t : tensor) :
  call_sum_density E f (tmap Ropp t) = tmap Ropp (call_sum_density E f t).
Proof.
  destruct f; cbn [call_sum_density]; [|reflexivity].
  unfold Module__sum_density. destruct (propagate_density E);
    [reflexivity|apply sum_nonbatch_opp].
Qed.

Lemma spline_density_cancels (E : Env) (f : sum_density_attr) (G : tensor)
  (c : R) :
  wf G -> Forall (fun v => 0 < v) (data G) ->
  tadd (tmap (Rplus c) (call_sum_density E f (tmap ln G)))
       (call_sum_density E f (tmap ln (tmap Rinv G)))
  = Some (tmap (fun _ => c) (call_sum_density E f (tmap ln G))).
Proof.
  intros HG Hpos.
  assert (Hln : tmap ln (tmap Rinv G) = tmap Ropp (tmap ln G)).
  { rewrite !tmap_tmap. apply tmap_ext_in. intros v Hv.
    rewrite Forall_forall in Hpos. now apply ln_Rinv, Hpos. }
  rewrite Hln, call_sum_density_opp.
  set (LJ := call_sum_density E f (tmap ln G)).
  assert (HLJ : wf LJ) by (apply wf_call_sum_density, wf_tmap, HG).
  unfold tadd.
  rewrite tbin_same by (try apply wf_tmap; try reflexivity; assumption).
  f_equal. unfold tmap. cbn [shape data]. f_equal.
  rewrite zipWith_map. apply map_ext. intros v. lra.
Qed.

Lemma wf_ravel (x : tensor) : wf (ravel x).
Proof. unfold wf, ravel. cbn. lia. Qed.

Lemma reshape_fits (t : tensor) (s : list nat) :
  length (data t) = numel s -> reshape t s = Some (mkT s (data t)).
Proof.
  intros H. unfold reshape. apply Nat.eqb_eq in H. now rewrite H.
Qed.

(** X2 — Round trip of [SplineNet_], for a spline evaluator that keeps its
    contract: [backward] applied to the result of [forward] returns the
    sample, and a log-density whose entries are all the number that
    [forward] was given, with and without flattening. *)
Lemma roundtrip_SplineNet_ (E : Env) (self : attrs) (cfg : SplineNet_config)
  (x : tensor) (c : R) :
  wf x ->
  spline_contract (make_spline E cfg) ->
  spline_call (make_spline E cfg)
    (if Nat.ltb 0 (length (spline_shape cfg)) then x else ravel x) <> None ->
  round_trip E (SplineNet_ self cfg) x c.
Proof.
  intros Hx Hcontract Hdef. unfold round_trip. cbn [forward backward].
  unfold SplineNet__forward, SplineNet__backward, SplineNet__apply.
  destruct (Nat.ltb 0 (length (spline_shape cfg))).
  - destruct (spline_call (make_spline E cfg) x) as [[fx g]|] eqn:Hcall;
      [|now destruct Hdef].
    destruct (Hcontract x fx g Hx Hcall)
      as [Hfx [Hsfx [Hg [Hsg [Hpos Hinv]]]]].
    do 3 eexists. split; [|split].
    + cbn [bind]. unfold tadd.
      rewrite tbin_scalar_l
        by (apply wf_call_sum_density, wf_tmap, Hg).
      reflexivity.
    + rewrite Hinv. cbn [bind].
      rewrite spline_density_cancels by assumption. reflexivity.
    + now apply all_equal_tmap.
  - destruct (spline_call (make_spline E cfg) (ravel x)) as [[fx g]|]
      eqn:Hcall; [|now destruct Hdef].
    destruct (Hcontract (ravel x) fx g (wf_ravel x) Hcall)
      as [Hfx [Hsfx [Hg [Hsg [Hpos Hinv]]]]].
    assert (Hn : forall t, wf t -> shape t = shape (ravel x) ->
                 length (data t) = numel (shape x)).
    { intros t Ht Hst. unfold wf in Ht, Hx. rewrite Ht, Hst.
      cbn [ravel shape numel]. rewrite Nat.mul_1_r. exact Hx. }
    assert (Hrav : forall t, wf t -> shape t = shape (ravel x) ->
                   ravel (mkT (shape x) (data t)) = t).
    { intros t Ht Hst. unfold ravel. cbn [data shape].
      destruct t as [st dt]. cbn [shape data] in *. subst st.
      unfold wf in Ht. cbn in Ht. f_equal. cbn [ravel shape].
      f_equal. lia. }
    set (G := mkT (shape x) (data g)).
    assert (HG : wf G) by (unfold wf, G; cbn [shape data]; now apply Hn).
    do 3 eexists. split; [|split].
    + cbn [bind]. rewrite !reshape_fits by now apply Hn.
      cbn [bind]. fold G. unfold tadd.
      rewrite tbin_scalar_l
        by (apply wf_call_sum_density, wf_tmap, HG).
      reflexivity.
    + cbn [shape]. rewrite Hrav by assumption. rewrite Hinv. cbn [bind].
      rewrite !reshape_fits
        by (cbn [ravel tmap data]; rewrite ?length_map;
            try apply Hx; now apply Hn).
      cbn [bind ravel tmap data shape].
      change (mkT (shape x) (map Rinv (data g))) with (tmap Rinv G).
      rewrite spline_density_cancels by assumption.
      now destruct x.
    + now apply all_equal_tmap.
Qed.

Lemma identity_spline_contract : spline_contract identity_spline.
Proof.
  intros x fx g Hx H. cbn in H. injection H as <- <-.
  split; [assumption|]. split; [reflexivity|].
  split; [apply wf_ones|]. split; [reflexivity|].
  split.
  - unfold ones. cbn [data]. apply Forall_forall. intros v Hv.
    apply repeat_spec in Hv. subst. lra.
  - cbn. do 2 f_equal. unfold tmap, ones. cbn [shape data]. f_equal.
    induction (numel (shape x)) as [|n IH]; cbn [repeat map];
      [reflexivity|].
    rewrite <- IH. f_equal. symmetry. apply Rinv_1.
Qed.

(* ================================================================== *)
(** * Part III: further properties of the modules *)
(* ================================================================== *)

(** ** Broadcasting commutes with elementwise maps *)

Lemma expand_map (f : R -> R) (t s : list nat) (d : list R) :
  expand t s (map f d) = map f (expand t s d).
Proof.
  revert s d; induction t as [|n t IH]; intros s d; cbn [expand];
    [reflexivity|].
  destruct (Nat.ltb (length s) (length (n :: t))).
  - now rewrite IH, concat_map, map_repeat.
  - destruct s as [|m s']; [reflexivity|].
    destruct (Nat.eqb m n).
    + rewrite chunks_map, concat_map, !map_map. f_equal.
      apply map_ext. intros c. apply IH.
    + now rewrite IH, concat_map, map_repeat.
Qed.

Lemma zipWith_pre_r (f g : R -> R -> R) (h : R -> R) (l1 l2 : list R) :
  (forall u v, f u v = g u (h v)) ->
  zipWith f l1 l2 = zipWith g l1 (map h l2).
Proof.
  intros H. revert l2; induction l1 as [|a l1 IH]; intros [|b l2]; cbn;
    try reflexivity.
  now rewrite H, IH.
Qed.

Lemma zipWith_post_l (f : R -> R -> R) (h : R -> R) (l1 l2 : list R) :
  (forall u v, f (h u) v = h (f u v)) ->
  zipWith f (map h l1) l2 = map h (zipWith f l1 l2).
Proof.
  intros H. revert l2; induction l1 as [|a l1 IH]; intros [|b l2]; cbn;
    try reflexivity.
  now rewrite H, IH.
Qed.

Lemma tbin_pre_r (f g : R -> R -> R) (h : R -> R) (a b : tensor) :
  (forall u v, f u v = g u (h v)) ->
  tbin f a b = tbin g a (tmap h b).
Proof.
  intros H. unfold tbin. cbn [tmap shape data].
  destruct (broadcast_shapes (shape a) (shape b)) as [s|]; [|reflexivity].
  cbn [bind]. now rewrite expand_map, (zipWith_pre_r f g h).
Qed.

Lemma tbin_post_l (f : R -> R -> R) (h : R -> R) (a b : tensor) :
  (forall u v, f (h u) v = h (f u v)) ->
  tbin f (tmap h a) b = option_map (tmap h) (tbin f a b).
Proof.
  intros H. unfold tbin. cbn [tmap shape data].
  destruct (broadcast_shapes (shape a) (shape b)) as [s|]; [|reflexivity].
  cbn [bind option_map]. unfold tmap. cbn [shape data].
  now rewrite expand_map, zipWith_post_l.
Qed.

(** ** [ScaleNet_] *)

Lemma ScaleNet__log_jacobian_opp (E : Env) (logw : R) (s : list nat) :
  ScaleNet__log_jacobian E (- logw) s
  = option_map (tmap Ropp) (ScaleNet__log_jacobian E logw s).
Proof.
  unfold ScaleNet__log_jacobian, tmul.
  destruct (propagate_density E).
  - change (logw_tensor (- logw)) with (tmap Ropp (logw_tensor logw)).
    apply tbin_post_l. intros u v. ring.
  - destruct s as [|b rest]; [reflexivity|].
    replace (tmap (fun v => v * INR (numel (tl (b :: rest))))
               (logw_tensor (- logw)))
      with (tmap Ropp (tmap (fun v => v * INR (numel (tl (b :: rest))))
                         (logw_tensor logw))).
    + apply tbin_post_l. intros u v. ring.
    + unfold tmap, logw_tensor. cbn [shape data map]. do 2 f_equal. ring.
Qed.

(** X3 — [ScaleNet_.backward] with parameter [logw] is [ScaleNet_.forward]
    with parameter [-logw], for every sample and every incoming
    log-density, errors included. *)
Theorem ScaleNet__backward_is_forward_of_opposite (E : Env)
  (self self' : attrs) (logw : R) (x log0 : tensor) :
  backward E (ScaleNet_ self logw) x log0
  = forward E (ScaleNet_ self' (- logw)) x log0.
Proof.
  cbn [forward backward]. unfold ScaleNet__backward, ScaleNet__forward.
  unfold tdiv, tmul, tsub, tadd.
  rewrite (tbin_pre_r Rdiv Rmult Rinv) by reflexivity.
  replace (tmap Rinv (tmap exp (logw_tensor logw)))
    with (tmap exp (logw_tensor (- logw)))
    by (unfold tmap, logw_tensor; cbn [shape data map];
        now rewrite exp_Ropp).
  destruct (tbin Rmult x _) as [y|]; [|reflexivity]. cbn [bind].
  rewrite ScaleNet__log_jacobian_opp.
  destruct (ScaleNet__log_jacobian E logw (shape x)) as [lj|];
    [|reflexivity].
  cbn [bind option_map].
  now rewrite (tbin_pre_r Rminus Rplus Ropp) by reflexivity.
Qed.

Lemma ScaleNet__forward_scalar (E : Env) (self : attrs) (logw : R)
  (x lj : tensor) (c : R) :
  wf x -> shape x <> [] -> wf lj ->
  ScaleNet__log_jacobian E logw (shape x) = Some lj ->
  forward E (ScaleNet_ self logw) x (scalar c)
  = Some (tmap (fun v => v * exp logw) x, tmap (Rplus c) lj).
Proof.
  intros Hx Hs Hwf Hlj. cbn [forward]. unfold ScaleNet__forward, tmul, tadd.
  change (tmap exp (logw_tensor logw)) with (mkT [1%nat] [exp logw]).
  rewrite tbin_one_r by assumption. cbn [bind]. rewrite Hlj. cbn [bind].
  now rewrite tbin_scalar_l by assumption.
Qed.

Lemma ScaleNet__forward_tensor (E : Env) (self : attrs) (logw : R)
  (x lj log0 : tensor) :
  wf x -> shape x <> [] -> wf lj -> wf log0 -> shape log0 = shape lj ->
  ScaleNet__log_jacobian E logw (shape x) = Some lj ->
  forward E (ScaleNet_ self logw) x log0
  = Some (tmap (fun v => v * exp logw) x,
          mkT (shape log0) (zipWith Rplus (data log0) (data lj))).
Proof.
  intros Hx Hs Hwf H0 Hsh Hlj. cbn [forward].
  unfold ScaleNet__forward, tmul, tadd.
  change (tmap exp (logw_tensor logw)) with (mkT [1%nat] [exp logw]).
  rewrite tbin_one_r by assumption. cbn [bind]. rewrite Hlj. cbn [bind].
  now rewrite tbin_same by assumption.
Qed.

Lemma ScaleNet__backward_scalar (E : Env) (self : attrs) (logw : R)
  (x lj : tensor) (c : R) :
  wf x -> shape x <> [] -> wf lj ->
  ScaleNet__log_jacobian E logw (shape x) = Some lj ->
  backward E (ScaleNet_ self logw) x (scalar c)
  = Some (tmap (fun v => v / exp logw) x, tmap (Rminus c) lj).
Proof.
  intros Hx Hs Hwf Hlj. cbn [backward].
  unfold ScaleNet__backward, tdiv, tsub.
  change (tmap exp (logw_tensor logw)) with (mkT [1%nat] [exp logw]).
  rewrite tbin_one_r by assumption. cbn [bind]. rewrite Hlj. cbn [bind].
  now rewrite tbin_scalar_l by assumption.
Qed.

(** The log-Jacobian of [ScaleNet_] as a multiple of a tensor of ones that
    depends on the mode and on the shape only. *)
Lemma ScaleNet__log_jacobian_linear (E : Env) (s : list nat) :
  s <> [] ->
  exists (k : R) (S : list nat),
    forall logw,
      ScaleNet__log_jacobian E logw s
      = Some (tmap (Rmult (logw * k)) (ones S)).
Proof.
  intros Hs. destruct (propagate_density E) eqn:Hp.
  - exists 1, s. intros logw.
    rewrite ScaleNet__log_jacobian_density by assumption.
    f_equal. apply tmap_ext_in. intros v _. ring.
  - destruct s as [|b rest]; [now destruct Hs|].
    exists (INR (numel rest)), [b]. intros logw.
    now rewrite ScaleNet__log_jacobian_scalar.
Qed.

(** X4 — Two [ScaleNet_] stages in a row act as one stage whose parameter
    is the sum of the two: the samples and the accumulated log-densities
    agree, in both reduction modes. *)
Theorem ScaleNet__forward_composes (E : Env) (s1 s2 s3 : attrs) (a b : R)
  (x : tensor) (c : R) :
  wf x -> shape x <> [] ->
  exists y l1,
    forward E (ScaleNet_ s1 a) x (scalar c) = Some (y, l1) /\
    forward E (ScaleNet_ s2 b) y l1
    = forward E (ScaleNet_ s3 (a + b)) x (scalar c).
Proof.
  intros Hx Hs.
  destruct (ScaleNet__log_jacobian_linear E (shape x) Hs) as [k [S Hlj]].
  assert (Hw : forall w, wf (tmap (Rmult (w * k)) (ones S)))
    by (intros w; apply wf_tmap, wf_ones).
  do 2 eexists. split.
  - apply ScaleNet__forward_scalar; [assumption|assumption|apply Hw|apply Hlj].
  - rewrite (ScaleNet__forward_scalar E s3 (a + b) x _ c Hx Hs
               (Hw (a + b)) (Hlj (a + b))).
    rewrite (ScaleNet__forward_tensor E s2 b
               (tmap (fun v => v * exp a) x)
               (tmap (Rmult (b * k)) (ones S)));
      try (apply wf_tmap); try assumption; try apply wf_ones;
      try reflexivity; try apply Hlj; try apply Hw.
    f_equal. f_equal.
    + rewrite tmap_tmap. apply tmap_ext_in. intros v _.
      rewrite exp_plus. ring.
    + unfold tmap, ones. cbn [shape data]. f_equal.
      rewrite !map_map, zipWith_map. apply map_ext. intros u. ring.
Qed.

Lemma ScaleNet__forward_composes_witness :
  wf sample_1x2 /\ shape sample_1x2 <> [] /\
  exists y l1,
    forward scalar_mode (ScaleNet_ (Module___init__ None) 1) sample_1x2
      (scalar 0) = Some (y, l1) /\
    forward scalar_mode (ScaleNet_ (Module___init__ None) 2) y l1
    = forward scalar_mode (ScaleNet_ (Module___init__ None) (1 + 2))
        sample_1x2 (scalar 0).
Proof.
  split; [reflexivity|]. split; [discriminate|].
  apply ScaleNet__forward_composes; [reflexivity|discriminate].
Defined.

(** X5 — A [ScaleNet_] as its constructor leaves it ([logw = 0]) maps every
    sample to itself, forward and backward, and returns a log-density whose
    entries are all the incoming number. *)
Theorem ScaleNet__fresh_is_identity (E : Env) (label : string) (x : tensor)
  (c : R) :
  wf x -> shape x <> [] ->
  exists l l',
    forward E (ScaleNet___init__ label) x (scalar c) = Some (x, l) /\
    all_equal c l /\
    backward E (ScaleNet___init__ label) x (scalar c) = Some (x, l') /\
    all_equal c l'.
Proof.
  intros Hx Hs.
  destruct (ScaleNet__log_jacobian_linear E (shape x) Hs) as [k [S Hlj]].
  assert (Hw : wf (tmap (Rmult (0 * k)) (ones S)))
    by (apply wf_tmap, wf_ones).
  assert (Hf : forward E (ScaleNet___init__ label) x (scalar c)
               = Some (x, tmap (Rplus c) (tmap (Rmult (0 * k)) (ones S)))).
  { unfold ScaleNet___init__.
    rewrite (ScaleNet__forward_scalar E _ 0 x _ c Hx Hs Hw (Hlj 0)).
    do 2 f_equal. rewrite <- (tmap_id x) at 2. apply tmap_ext_in.
    intros v _. rewrite exp_0. ring. }
  assert (Hz : all_equal c (tmap (Rplus c) (tmap (Rmult (0 * k)) (ones S)))).
  { rewrite tmap_tmap. apply all_equal_tmap. intros v. ring. }
  do 2 eexists. split; [exact Hf|]. split; [exact Hz|].
  unfold ScaleNet___init__.
  rewrite (ScaleNet__backward_scalar E _ 0 x _ c Hx Hs Hw (Hlj 0)).
  split.
  - do 2 f_equal. rewrite <- (tmap_id x) at 2. apply tmap_ext_in.
    intros v _. rewrite exp_0. field.
  - rewrite tmap_tmap. apply all_equal_tmap. intros v. ring.
Qed.

Lemma ScaleNet__fresh_is_identity_witness :
  wf sample_1x2 /\ shape sample_1x2 <> [] /\
  exists l l',
    forward density_mode (ScaleNet___init__ "scale_") sample_1x2 (scalar 0)
    = Some (sample_1x2, l) /\
    all_equal 0 l /\
    backward density_mode (ScaleNet___init__ "scale_") sample_1x2 (scalar 0)
    = Some (sample_1x2, l') /\
    all_equal 0 l'.
Proof.
  split; [reflexivity|]. split; [discriminate|].
  apply ScaleNet__fresh_is_identity; [reflexivity|discriminate].
Defined.

(** X6 — A sample without axes.  When densities are summed per batch item,
    [ScaleNet_] raises on it in both directions (there is no batch axis to
    index); when densities are propagated, the result and its log-density
    come back with the one-element shape of the parameter, not with the
    shape of the sample. *)
Theorem ScaleNet__sample_without_axes
  (spline : SplineNet_config -> Spline) (self : attrs) (logw v c : R) :
  forward (mkEnv false spline) (ScaleNet_ self logw) (scalar v) (scalar c)
  = None /\
  backward (mkEnv false spline) (ScaleNet_ self logw) (scalar v) (scalar c)
  = None /\
  forward (mkEnv true spline) (ScaleNet_ self logw) (scalar v) (scalar c)
  = Some (mkT [1%nat] [v * exp logw], mkT [1%nat] [c + logw * 1]) /\
  backward (mkEnv true spline) (ScaleNet_ self logw) (scalar v) (scalar c)
  = Some (mkT [1%nat] [v / exp logw], mkT [1%nat] [c - logw * 1]).
Proof. repeat split. Qed.

Lemma chunks_repeat (c : R) (k m : nat) :
  chunks k m (repeat c (m * k)) = repeat (repeat c k) m.
Proof.
  induction m as [|m IH]; cbn [chunks repeat Nat.mul]; [reflexivity|].
  rewrite repeat_app, firstn_app, skipn_app, firstn_all2, skipn_all2
    by (rewrite repeat_length; lia).
  rewrite repeat_length, Nat.sub_diag, firstn_O, skipn_O, app_nil_r.
  cbn [app]. now rewrite IH.
Qed.

Lemma Rsum_repeat (c : R) (n : nat) : Rsum (repeat c n) = INR n * c.
Proof.
  induction n as [|n IH]; [cbn; ring|].
  rewrite S_INR. cbn [repeat Rsum fold_right].
  fold (Rsum (repeat c n)). rewrite IH. ring.
Qed.

(** X7 — The two branches of [ScaleNet_.log_jacobian] agree: the tensor
    returned when densities are summed per batch item is the sum over the
    non-batch axes of the tensor returned when they are propagated. *)
Theorem ScaleNet__log_jacobian_branches_agree
  (spline : SplineNet_config -> Spline) (logw : R) (b : nat)
  (rest : list nat) :
  exists per_element per_item,
    ScaleNet__log_jacobian (mkEnv true spline) logw (b :: rest)
    = Some per_element /\
    ScaleNet__log_jacobian (mkEnv false spline) logw (b :: rest)
    = Some per_item /\
    per_item = sum_nonbatch per_element.
Proof.
  do 2 eexists.
  split; [now apply ScaleNet__log_jacobian_density|].
  split; [now apply ScaleNet__log_jacobian_scalar|].
  unfold sum_nonbatch, tmap, ones. cbn [shape data numel].
  f_equal. rewrite Nat.mul_1_r, !map_repeat, chunks_repeat, map_repeat.
  f_equal. rewrite Rsum_repeat. ring.
Qed.

(** ** The log-Jacobians are the logarithms of the derivatives *)

Lemma cosh2_sinh2 (x : R) : cosh x * cosh x - sinh x * sinh x = 1.
Proof.
  unfold cosh, sinh. rewrite exp_Ropp. pose proof (exp_pos x). field. lra.
Qed.

Lemma exp_m2_ln (c : R) : 0 < c -> exp (0 + -2 * ln c) = / (c * c).
Proof.
  intros Hc. replace (0 + -2 * ln c) with (- (ln c + ln c)) by lra.
  rewrite exp_Ropp, exp_plus, exp_ln by assumption. reflexivity.
Qed.

Lemma exp_2_ln (c : R) : 0 < c -> exp (0 + 2 * ln c) = c * c.
Proof.
  intros Hc. replace (0 + 2 * ln c) with (ln c + ln c) by lra.
  now rewrite exp_plus, exp_ln.
Qed.

Lemma derivable_pt_lim_tanh (v : R) :
  derivable_pt_lim tanh v (exp (0 + -2 * lncosh v)).
Proof.
  unfold lncosh. rewrite exp_m2_ln by apply cosh_pos.
  pose proof (cosh_pos v) as Hc.
  replace (/ (cosh v * cosh v))
    with ((cosh v * cosh v - sinh v * sinh v) / Rsqr (cosh v))
    by (rewrite cosh2_sinh2; unfold Rsqr; field; lra).
  apply (derivable_pt_lim_div sinh cosh).
  - apply derivable_pt_lim_sinh.
  - apply derivable_pt_lim_cosh.
  - lra.
Qed.

Lemma cosh_atanh_sq (v : R) :
  -1 < v < 1 -> cosh (atanh v) * cosh (atanh v) = / (1 - v * v).
Proof.
  intros Hv. pose proof (tanh_atanh v Hv) as Ht.
  pose proof (cosh_pos (atanh v)) as Hc.
  pose proof (cosh2_sinh2 (atanh v)) as H2.
  unfold tanh in Ht.
  assert (Hs : sinh (atanh v) = v * cosh (atanh v)).
  { rewrite <- Ht at 2. field. lra. }
  rewrite Hs in H2.
  assert (H3 : cosh (atanh v) * cosh (atanh v) * (1 - v * v) = 1) by lra.
  assert (Hne : 1 - v * v <> 0) by nra.
  apply Rmult_eq_reg_r with (1 - v * v); [|assumption].
  rewrite H3. field. assumption.
Qed.

Lemma derivable_pt_lim_atanh (v : R) :
  -1 < v < 1 ->
  derivable_pt_lim atanh v (exp (0 + 2 * lncosh (atanh v))).
Proof.
  intros Hv. unfold lncosh. rewrite exp_2_ln by apply cosh_pos.
  rewrite cosh_atanh_sq by assumption.
  assert (Hq : derivable_pt_lim (fun u => (1 + u) / (1 - u)) v
                 (2 / Rsqr (1 - v))).
  { replace (2 / Rsqr (1 - v))
      with (((0 + 1) * (1 - v) - (0 - 1) * (1 + v)) / Rsqr (1 - v))
      by (unfold Rsqr; field; lra).
    apply (derivable_pt_lim_div (fun u => 1 + u) (fun u => 1 - u)).
    - apply (derivable_pt_lim_plus (fct_cte 1) id);
        [apply derivable_pt_lim_const|apply derivable_pt_lim_id].
    - apply (derivable_pt_lim_minus (fct_cte 1) id);
        [apply derivable_pt_lim_const|apply derivable_pt_lim_id].
    - lra. }
  assert (Hpos : 0 < (1 + v) / (1 - v)) by (apply Rdiv_lt_0_compat; lra).
  pose proof (derivable_pt_lim_comp _ ln v _ _ Hq
                (derivable_pt_lim_ln _ Hpos)) as Hc.
  pose proof (derivable_pt_lim_div_scal _ _ _ 2 Hc) as Hd.
  replace (/ (1 - v * v))
    with (/ ((1 + v) / (1 - v)) * (2 / Rsqr (1 - v)) / 2)
    by (unfold Rsqr; field; split; [|split]; nra).
  exact Hd.
Qed.

Lemma derivable_pt_lim_expit (v : R) :
  derivable_pt_lim expit v (exp (0 + (- v + 2 * ln (expit v)))).
Proof.
  pose proof (expit_bounds v) as Hb.
  replace (0 + (- v + 2 * ln (expit v)))
    with (- v + (ln (expit v) + ln (expit v))) by lra.
  rewrite !exp_plus, exp_ln by lra.
  pose proof (exp_pos (- v)) as He.
  assert (Hd : derivable_pt_lim (fun u => 1 + exp (- u)) v
                 (0 + exp (- v) * (- 1))).
  { apply (derivable_pt_lim_plus (fct_cte 1) (fun u => exp (- u))).
    - apply derivable_pt_lim_const.
    - apply (derivable_pt_lim_comp (fun u => - u) exp).
      + apply (derivable_pt_lim_opp id). apply derivable_pt_lim_id.
      + apply derivable_pt_lim_exp. }
  replace (exp (- v) * (expit v * expit v))
    with ((0 * (1 + exp (- v)) - (0 + exp (- v) * (- 1)) * 1)
          / Rsqr (1 + exp (- v)))
    by (unfold expit, Rsqr; field; lra).
  apply (derivable_pt_lim_div (fct_cte 1) (fun u => 1 + exp (- u))).
  - apply derivable_pt_lim_const.
  - exact Hd.
  - lra.
Qed.

Lemma derivable_pt_lim_logit (v : R) :
  0 < v < 1 ->
  derivable_pt_lim logit v (exp (0 + - ln (v * (1 - v)))).
Proof.
  intros Hv.
  assert (Hp : 0 < v * (1 - v)) by nra.
  replace (0 + - ln (v * (1 - v))) with (- ln (v * (1 - v))) by lra.
  rewrite exp_Ropp, exp_ln by assumption.
  assert (Hq : derivable_pt_lim (fun u => u / (1 - u)) v
                 (1 / Rsqr (1 - v))).
  { replace (1 / Rsqr (1 - v))
      with ((1 * (1 - v) - (0 - 1) * v) / Rsqr (1 - v))
      by (unfold Rsqr; field; lra).
    apply (derivable_pt_lim_div id (fun u => 1 - u)).
    - apply derivable_pt_lim_id.
    - apply (derivable_pt_lim_minus (fct_cte 1) id);
        [apply derivable_pt_lim_const|apply derivable_pt_lim_id].
    - lra. }
  assert (Hpos : 0 < v / (1 - v)) by (apply Rdiv_lt_0_compat; lra).
  pose proof (derivable_pt_lim_comp _ ln v _ _ Hq
                (derivable_pt_lim_ln _ Hpos)) as Hc.
  replace (/ (v * (1 - v))) with (/ (v / (1 - v)) * (1 / Rsqr (1 - v)))
    by (unfold Rsqr; field; split; lra).
  exact Hc.
Qed.

Lemma derivable_pt_lim_scale (w v : R) :
  derivable_pt_lim (fun u => u * exp w) v (exp (0 + w * 1)).
Proof.
  replace (exp (0 + w * 1)) with (1 * exp w + id v * 0)
    by (replace (0 + w * 1) with w by lra; unfold id; lra).
  apply (derivable_pt_lim_mult id (fct_cte (exp w))).
  - apply derivable_pt_lim_id.
  - apply derivable_pt_lim_const.
Qed.

Lemma derivable_pt_lim_sgnbias (c v : R) :
  v <> 0 -> derivable_pt_lim (fun u => u + sgn u * c) v (exp 0).
Proof.
  intros Hv. rewrite exp_0.
  destruct (Rtotal_order v 0) as [H|[H|H]]; [|contradiction|].
  - apply (derivable_pt_lim_locally_ext (fun u => u + - c) _ v (v - 1) 0);
      [lra| |].
    + intros z Hz. unfold sgn.
      destruct (total_order_T z 0) as [[H'|H']|H']; lra.
    + replace 1 with (1 + 0) by lra.
      apply (derivable_pt_lim_plus id (fct_cte (- c)));
        [apply derivable_pt_lim_id|apply derivable_pt_lim_const].
  - apply (derivable_pt_lim_locally_ext (fun u => u + c) _ v 0 (v + 1));
      [lra| |].
    + intros z Hz. unfold sgn.
      destruct (total_order_T z 0) as [[H'|H']|H']; lra.
    + replace 1 with (1 + 0) by lra.
      apply (derivable_pt_lim_plus id (fct_cte c));
        [apply derivable_pt_lim_id|apply derivable_pt_lim_const].
Qed.

Lemma sgnbias_discontinuous (c : R) :
  0 < c -> ~ continuity_pt (fun u => u + sgn u * c) 0.
Proof.
  intros Hc Hcont.
  destruct (Hcont c Hc) as [alp [Halp H]].
  specialize (H (alp / 2)).
  assert (Hs : sgn (alp / 2) = 1).
  { unfold sgn. destruct (total_order_T (alp / 2) 0) as [[H'|H']|H']; lra. }
  assert (H0 : sgn 0 = 0).
  { unfold sgn. destruct (total_order_T 0 0) as [[H'|H']|H']; lra. }
  simpl in H. unfold R_dist in H. rewrite Hs, H0 in H.
  assert (Hd : Rabs (alp / 2 + 1 * c - (0 + 0 * c)) < c).
  { apply H. split.
    - unfold D_x, no_cond. split; [exact I|lra].
    - rewrite Rabs_right; lra. }
  rewrite Rabs_right in Hd; lra.
Qed.

Lemma elementwise_per_element (E : Env) (reduce : sum_density_attr)
  (f g k : R -> R) (x : tensor) :
  wf x ->
  elementwise (per_element E) reduce f g k x (scalar 0)
  = Some (tmap f x, tmap (fun v => 0 + k (g v)) x).
Proof.
  intros Hx. unfold elementwise, tadd.
  rewrite call_sum_density_per_element.
  rewrite tbin_scalar_l by (repeat apply wf_tmap; assumption).
  cbn [bind]. now rewrite !tmap_tmap.
Qed.

(** X8 — With densities propagated per element, [Tanh_] and [ArcTanh_] add
    to a zero log-density, at every element, the logarithm of the
    derivative of the map they apply to that element. *)
Theorem Tanh__log_jacobian_is_log_derivative (E : Env) (self : attrs)
  (x : tensor) :
  wf x ->
  forward (per_element E) (Tanh_ self) x (scalar 0)
  = Some (tmap tanh x, tmap (fun v => 0 + -2 * lncosh v) x) /\
  (forall v, derivable_pt_lim tanh v (exp (0 + -2 * lncosh v))) /\
  forward (per_element E) (ArcTanh_ self) x (scalar 0)
  = Some (tmap atanh x, tmap (fun v => 0 + 2 * lncosh (atanh v)) x) /\
  (forall v, -1 < v < 1 ->
             derivable_pt_lim atanh v (exp (0 + 2 * lncosh (atanh v)))).
Proof.
  intros Hx. cbn [forward].
  rewrite Tanh__forward_elementwise, ArcTanh__forward_elementwise.
  rewrite !elementwise_per_element by assumption.
  split; [reflexivity|]. split; [exact derivable_pt_lim_tanh|].
  split; [reflexivity|exact derivable_pt_lim_atanh].
Qed.

Lemma Tanh__log_jacobian_is_log_derivative_witness :
  wf sample_1x2 /\
  forward (per_element scalar_mode) (Tanh_ (Module___init__ None))
    sample_1x2 (scalar 0)
  = Some (tmap tanh sample_1x2,
          tmap (fun v => 0 + -2 * lncosh v) sample_1x2).
Proof.
  split; [reflexivity|].
  exact (proj1 (Tanh__log_jacobian_is_log_derivative scalar_mode
                  (Module___init__ None) sample_1x2 eq_refl)).
Defined.

(** X9 — With densities propagated per element, [Expit_] and [Logit_] add
    to a zero log-density, at every element, the logarithm of the
    derivative of the map they apply to that element. *)
Theorem Expit__log_jacobian_is_log_derivative (E : Env) (self : attrs)
  (x : tensor) :
  wf x ->
  forward (per_element E) (Expit_ self) x (scalar 0)
  = Some (tmap expit x, tmap (fun v => 0 + (- v + 2 * ln (expit v))) x) /\
  (forall v, derivable_pt_lim expit v
               (exp (0 + (- v + 2 * ln (expit v))))) /\
  forward (per_element E) (Logit_ self) x (scalar 0)
  = Some (tmap logit x, tmap (fun v => 0 + - ln (v * (1 - v))) x) /\
  (forall v, 0 < v < 1 ->
             derivable_pt_lim logit v (exp (0 + - ln (v * (1 - v))))).
Proof.
  intros Hx. cbn [forward].
  rewrite Expit__forward_elementwise, Logit__forward_elementwise
    by assumption.
  rewrite !elementwise_per_element by assumption.
  split; [reflexivity|]. split; [exact derivable_pt_lim_expit|].
  split; [reflexivity|exact derivable_pt_lim_logit].
Qed.

Lemma Expit__log_jacobian_is_log_derivative_witness :
  wf sample_1x2 /\
  forward (per_element scalar_mode) (Expit_ (Module___init__ None))
    sample_1x2 (scalar 0)
  = Some (tmap expit sample_1x2,
          tmap (fun v => 0 + (- v + 2 * ln (expit v))) sample_1x2).
Proof.
  split; [reflexivity|].
  exact (proj1 (Expit__log_jacobian_is_log_derivative scalar_mode
                  (Module___init__ None) sample_1x2 eq_refl)).
Defined.

(** X10 — With densities propagated per element, [ScaleNet_] adds [logw]
    at every element, the logarithm of the derivative [exp(logw)] of the
    scaling. *)
Theorem ScaleNet__log_jacobian_is_log_derivative (E : Env) (self : attrs)
  (logw : R) (x : tensor) :
  wf x -> shape x <> [] ->
  forward (per_element E) (ScaleNet_ self logw) x (scalar 0)
  = Some (tmap (fun v => v * exp logw) x, tmap (fun _ => 0 + logw * 1) x) /\
  (forall v, derivable_pt_lim (fun u => u * exp logw) v
               (exp (0 + logw * 1))).
Proof.
  intros Hx Hs. split; [|exact (derivable_pt_lim_scale logw)].
  rewrite (ScaleNet__forward_scalar (per_element E) self logw x
             (tmap (Rmult logw) (ones (shape x))) 0 Hx Hs).
  - do 2 f_equal. unfold tmap, ones. cbn [shape data]. f_equal.
    rewrite !map_map, map_repeat, map_const.
    unfold wf in Hx. now rewrite Hx.
  - apply wf_tmap, wf_ones.
  - now apply ScaleNet__log_jacobian_density.
Qed.

Lemma ScaleNet__log_jacobian_is_log_derivative_witness :
  wf sample_1x2 /\ shape sample_1x2 <> [] /\
  forward (per_element scalar_mode) (ScaleNet_ (Module___init__ None) 3)
    sample_1x2 (scalar 0)
  = Some (tmap (fun v => v * exp 3) sample_1x2,
          tmap (fun _ => 0 + 3 * 1) sample_1x2).
Proof.
  split; [reflexivity|]. split; [discriminate|].
  apply (ScaleNet__log_jacobian_is_log_derivative scalar_mode
           (Module___init__ None) 3 sample_1x2);
    [reflexivity|discriminate].
Defined.

(** ** [SgnBiasNet_] *)

Lemma SgnBiasNet__forward_value (E : Env) (self : attrs) (w0 : R)
  (x log0 : tensor) :
  wf x -> shape x <> [] ->
  forward E (SgnBiasNet_ self (mkT [1%nat] [w0])) x log0
  = Some (tmap (fun v => v + sgn v * w0 ^ 2) x, log0).
Proof.
  intros Hx Hs. cbn [forward]. unfold SgnBiasNet__forward, tadd.
  rewrite SgnBiasNet__bias by assumption. cbn [bind].
  now rewrite tbin_tmap_r by assumption.
Qed.

Lemma SgnBiasNet__backward_value (E : Env) (self : attrs) (w0 : R)
  (x log0 : tensor) :
  wf x -> shape x <> [] ->
  backward E (SgnBiasNet_ self (mkT [1%nat] [w0])) x log0
  = Some (tmap (fun v => v - sgn v * w0 ^ 2) x, log0).
Proof.
  intros Hx Hs. cbn [backward]. unfold SgnBiasNet__backward, tsub.
  rewrite SgnBiasNet__bias by assumption. cbn [bind].
  now rewrite tbin_tmap_r by assumption.
Qed.

(** X11 — [SgnBiasNet_] leaves the log-density as it is, and rightly so
    away from zero, where its map has derivative one; at zero the map is
    not continuous as soon as the parameter is not zero, as the docstring
    of the class warns. *)
Theorem SgnBiasNet__unit_derivative_away_from_zero (E : Env) (self : attrs)
  (w0 : R) (x log0 : tensor) :
  wf x -> shape x <> [] ->
  forward E (SgnBiasNet_ self (mkT [1%nat] [w0])) x log0
  = Some (tmap (fun v => v + sgn v * w0 ^ 2) x, log0) /\
  (forall v, v <> 0 ->
     derivable_pt_lim (fun u => u + sgn u * w0 ^ 2) v (exp 0)) /\
  (w0 <> 0 -> ~ continuity_pt (fun u => u + sgn u * w0 ^ 2) 0).
Proof.
  intros Hx Hs. split; [now apply SgnBiasNet__forward_value|].
  split; [intros v; apply derivable_pt_lim_sgnbias|].
  intros Hw. apply sgnbias_discontinuous.
  assert (H := pow2_ge_0 w0). assert (w0 ^ 2 <> 0); [|lra].
  intros H0. apply Hw. simpl in H0. nra.
Qed.

Lemma SgnBiasNet__unit_derivative_away_from_zero_witness :
  wf sample_1x2 /\ shape sample_1x2 <> [] /\
  forward scalar_mode
    (SgnBiasNet_ (Module___init__ None) (mkT [1%nat] [1 / 10]))
    sample_1x2 (scalar 0)
  = Some (tmap (fun v => v + sgn v * (1 / 10) ^ 2) sample_1x2, scalar 0).
Proof.
  split; [reflexivity|]. split; [discriminate|].
  apply (SgnBiasNet__unit_derivative_away_from_zero scalar_mode
           (Module___init__ None) (1 / 10) sample_1x2 (scalar 0));
    [reflexivity|discriminate].
Defined.

Lemma sgn_cases (v : R) :
  (v < 0 /\ sgn v = -1) \/ (v = 0 /\ sgn v = 0) \/ (0 < v /\ sgn v = 1).
Proof.
  unfold sgn. destruct (total_order_T v 0) as [[H|H]|H]; auto.
Qed.

(** X12 — [SgnBiasNet_.forward] keeps zero and the sign of every element
    and moves every other element away from zero by the square of the
    parameter: no element of the result lies strictly between zero and
    that square in absolute value. *)
Theorem SgnBiasNet__forward_leaves_a_gap (E : Env) (self : attrs) (w0 : R)
  (x log0 : tensor) :
  wf x -> shape x <> [] ->
  exists y,
    forward E (SgnBiasNet_ self (mkT [1%nat] [w0])) x log0 = Some (y, log0) /\
    shape y = shape x /\
    Forall2 (fun v u => sgn u = sgn v /\
                        Rabs u = Rabs v + w0 ^ 2 * Rabs (sgn v))
            (data x) (data y) /\
    Forall (fun u => u = 0 \/ w0 ^ 2 <= Rabs u) (data y).
Proof.
  intros Hx Hs. eexists. split; [now apply SgnBiasNet__forward_value|].
  split; [reflexivity|]. cbn [tmap data].
  assert (Hc := pow2_ge_0 w0).
  assert (Hel : forall v,
            sgn (v + sgn v * w0 ^ 2) = sgn v /\
            Rabs (v + sgn v * w0 ^ 2) = Rabs v + w0 ^ 2 * Rabs (sgn v)).
  { intros v. split; [now apply sgn_shift|].
    destruct (sgn_cases v) as [[H ->]|[[H ->]|[H ->]]].
    - rewrite (Rabs_left v), Rabs_left, (Rabs_left (-1)) by lra. lra.
    - subst v. rewrite Rabs_R0. replace (0 + 0 * w0 ^ 2) with 0 by lra.
      rewrite Rabs_R0. lra.
    - rewrite (Rabs_right v), Rabs_right, (Rabs_right 1) by lra. lra. }
  split.
  - induction (data x) as [|v d IH]; cbn [map]; constructor; auto.
  - apply Forall_forall. intros u Hu. apply in_map_iff in Hu.
    destruct Hu as [v [<- _]]. destruct (Hel v) as [_ Ha].
    destruct (sgn_cases v) as [[H Hsg]|[[H Hsg]|[H Hsg]]].
    + right. rewrite Ha, Hsg, (Rabs_left (-1)) by lra.
      pose proof (Rabs_pos v). lra.
    + left. subst v. rewrite Hsg. lra.
    + right. rewrite Ha, Hsg, (Rabs_right 1) by lra.
      pose proof (Rabs_pos v). lra.
Qed.

Lemma SgnBiasNet__forward_leaves_a_gap_witness :
  wf sample_1x2 /\ shape sample_1x2 <> [] /\
  exists y,
    forward scalar_mode
      (SgnBiasNet_ (Module___init__ None) (mkT [1%nat] [1 / 10]))
      sample_1x2 (scalar 0) = Some (y, scalar 0) /\
    Forall (fun u => u = 0 \/ (1 / 10) ^ 2 <= Rabs u) (data y).
Proof.
  split; [reflexivity|]. split; [discriminate|].
  destruct (SgnBiasNet__forward_leaves_a_gap scalar_mode
              (Module___init__ None) (1 / 10) sample_1x2 (scalar 0)
              eq_refl ltac:(discriminate)) as [y [H1 [_ [_ H2]]]].
  exists y. split; [exact H1|exact H2].
Defined.

Lemma map_fixes_elements (f : R -> R) (l : list R) :
  map f l = l -> forall v, In v l -> f v = v.
Proof.
  induction l as [|a l IH]; intros H v Hv; [now destruct Hv|].
  cbn in H. injection H as Ha Hl. destruct Hv as [<-|Hv]; auto.
Qed.

(** X13 — [SgnBiasNet_.backward] undoes [forward], not the other way
    round: on a sample with an element strictly between zero and the square
    of the parameter in absolute value, [forward] applied to the result of
    [backward] does not return the sample. *)
Theorem SgnBiasNet__forward_does_not_undo_backward (E : Env) (self : attrs)
  (w0 : R) (x log0 : tensor) :
  wf x -> shape x <> [] ->
  Exists (fun v => 0 < Rabs v < w0 ^ 2) (data x) ->
  exists y z,
    backward E (SgnBiasNet_ self (mkT [1%nat] [w0])) x log0 = Some (y, log0) /\
    forward E (SgnBiasNet_ self (mkT [1%nat] [w0])) y log0 = Some (z, log0) /\
    z <> x.
Proof.
  intros Hx Hs Hex. do 2 eexists.
  split; [now apply SgnBiasNet__backward_value|].
  split; [apply SgnBiasNet__forward_value; [now apply wf_tmap|assumption]|].
  rewrite tmap_tmap. intros Heq.
  apply (f_equal data) in Heq. cbn [tmap data] in Heq.
  apply Exists_exists in Hex. destruct Hex as [v [Hin Hv]].
  pose proof (map_fixes_elements _ _ Heq v Hin) as Hfix. cbv beta in Hfix.
  destruct (sgn_cases v) as [[H Hsg]|[[H Hsg]|[H Hsg]]].
  - rewrite Rabs_left in Hv by lra. rewrite Hsg in Hfix.
    assert (Hp : 0 < v - -1 * w0 ^ 2) by lra.
    destruct (sgn_cases (v - -1 * w0 ^ 2)) as [[H' Hs']|[[H' Hs']|[H' Hs']]];
      rewrite Hs' in Hfix; lra.
  - subst v. rewrite Rabs_R0 in Hv. lra.
  - rewrite Rabs_right in Hv by lra. rewrite Hsg in Hfix.
    destruct (sgn_cases (v - 1 * w0 ^ 2)) as [[H' Hs']|[[H' Hs']|[H' Hs']]];
      rewrite Hs' in Hfix; lra.
Qed.

Lemma SgnBiasNet__forward_does_not_undo_backward_witness :
  wf sample_1x2 /\ shape sample_1x2 <> [] /\
  Exists (fun v => 0 < Rabs v < 1 ^ 2) (data sample_1x2) /\
  exists y z,
    backward scalar_mode
      (SgnBiasNet_ (Module___init__ None) (mkT [1%nat] [1]))
      sample_1x2 (scalar 0) = Some (y, scalar 0) /\
    forward scalar_mode
      (SgnBiasNet_ (Module___init__ None) (mkT [1%nat] [1]))
      y (scalar 0) = Some (z, scalar 0) /\
    z <> sample_1x2.
Proof.
  assert (Hex : Exists (fun v => 0 < Rabs v < 1 ^ 2) (data sample_1x2)).
  { unfold sample_1x2. cbn [data]. apply Exists_cons_tl, Exists_cons_hd.
    rewrite Rabs_right; lra. }
  split; [reflexivity|]. split; [discriminate|]. split; [exact Hex|].
  apply SgnBiasNet__forward_does_not_undo_backward;
    [reflexivity|discriminate|exact Hex].
Defined.

(** ** The sample and the log-density *)

Ltac split_binds :=
  repeat match goal with
         | |- context [bind ?c _] =>
             destruct c as [[? ?]|]; cbn [bind];
             try (intros; discriminate)
         end.

(** X14 — For every module, wrappers included, the sample returned by
    [forward] and by [backward] does not depend on the incoming
    log-density. *)
Theorem sample_does_not_depend_on_log_density (E : Env) (m : Module_)
  (x l1 l2 y1 y2 o1 o2 : tensor) :
  (forward E m x l1 = Some (y1, o1) ->
   forward E m x l2 = Some (y2, o2) -> y1 = y2) /\
  (backward E m x l1 = Some (y1, o1) ->
   backward E m x l2 = Some (y2, o2) -> y1 = y2).
Proof.
  split; destruct m; cbn [forward backward];
    unfold ScaleNet__forward, ScaleNet__backward,
      Tanh__backward, ArcTanh__backward, Expit__backward, Logit__backward,
      Tanh__forward, ArcTanh__forward, Expit__forward, Logit__forward,
      SplineNet__forward, SplineNet__backward, SplineNet__apply,
      SgnBiasNet__forward, SgnBiasNet__backward;
    split_binds; intros H1 H2; congruence.
Qed.

Lemma In_chunks (k m : nat) (l c : list R) (u : R) :
  In c (chunks k m l) -> In u c -> In u l.
Proof.
  revert l; induction m as [|m IH]; intros l Hc Hu; [now destruct Hc|].
  cbn [chunks] in Hc. destruct Hc as [<-|Hc].
  - rewrite <- (firstn_skipn k l). apply in_or_app. now left.
  - rewrite <- (firstn_skipn k l). apply in_or_app. right.
    now apply IH.
Qed.

Lemma Rsum_closed (P : R -> Prop) (l : list R) :
  P 0 -> (forall a b, P a -> P b -> P (a + b)) ->
  (forall u, In u l -> P u) -> P (Rsum l).
Proof.
  intros H0 Hadd. induction l as [|a l IH]; intros Hl; [exact H0|].
  cbn. apply Hadd; [apply Hl; now left|].
  apply IH. intros u Hu. apply Hl. now right.
Qed.

(** A property of the per-element densities that sums preserve holds for
    every entry of the reduced density, whatever the reduction. *)
Lemma reduced_density_entries (E : Env) (reduce : sum_density_attr)
  (P : R -> Prop) (g : R -> R) (x : tensor) :
  P 0 -> (forall a b, P a -> P b -> P (a + b)) ->
  (forall v, In v (data x) -> P (g v)) ->
  forall s, In s (data (call_sum_density E reduce (tmap g x))) -> P s.
Proof.
  intros H0 Hadd Hg.
  assert (Hd : forall s, In s (data (tmap g x)) -> P s).
  { intros s Hs. cbn [tmap data] in Hs. apply in_map_iff in Hs.
    destruct Hs as [v [<- Hv]]. now apply Hg. }
  destruct reduce; cbn [call_sum_density]; [|exact Hd].
  unfold Module__sum_density. destruct (propagate_density E); [exact Hd|].
  unfold sum_nonbatch. destruct (shape (tmap g x)) as [|b rest];
    [exact Hd|].
  cbn [data]. intros s Hs. apply in_map_iff in Hs.
  destruct Hs as [c [<- Hc]]. apply Rsum_closed; try assumption.
  intros u Hu. apply Hd. now apply In_chunks with (numel rest) b c.
Qed.

Lemma elementwise_entries (E : Env) (reduce : sum_density_attr)
  (P Q : R -> Prop) (f g k : R -> R) (x : tensor) (c : R) :
  wf x ->
  P 0 -> (forall a b, P a -> P b -> P (a + b)) ->
  (forall v, In v (data x) -> P (g v)) ->
  (forall s, P s -> Q (c + k s)) ->
  exists l,
    elementwise E reduce f g k x (scalar c) = Some (tmap f x, l) /\
    Forall Q (data l).
Proof.
  intros Hx H0 Hadd Hg HQ. unfold elementwise, tadd.
  rewrite tbin_scalar_l
    by (apply wf_tmap, wf_call_sum_density, wf_tmap, Hx).
  eexists. split; [reflexivity|].
  rewrite tmap_tmap. cbn [tmap data]. apply Forall_forall.
  intros u Hu. apply in_map_iff in Hu. destruct Hu as [s [<- Hs]].
  apply HQ. now apply (reduced_density_entries E reduce P g x).
Qed.

Lemma lncosh_nonneg (v : R) : 0 <= lncosh v.
Proof.
  destruct (Req_dec v 0) as [->|Hv].
  - unfold lncosh. rewrite cosh_0, ln_1. lra.
  - left. now apply lncosh_pos.
Qed.

Lemma ln_unit_product_nonpos (y : R) : 0 < y < 1 -> ln (y * (1 - y)) <= 0.
Proof.
  intros Hy. rewrite <- ln_1. left. apply ln_increasing; nra.
Qed.

(** X15 — The squashing maps never raise the log-density and their
    inverses never lower it: every entry of the log-density that [Tanh_]
    and [Expit_] return is at most the incoming number, and every entry
    that [ArcTanh_] and [Logit_] return on their domains is at least that
    number, per element and per batch item alike. *)
Theorem squashing_lowers_the_log_density (E : Env) (self : attrs)
  (x : tensor) (c : R) :
  wf x ->
  (exists l, forward E (Tanh_ self) x (scalar c) = Some (tmap tanh x, l) /\
             Forall (fun u => u <= c) (data l)) /\
  (exists l, forward E (Expit_ self) x (scalar c) = Some (tmap expit x, l) /\
             Forall (fun u => u <= c) (data l)) /\
  (within (-1) 1 x ->
   exists l, forward E (ArcTanh_ self) x (scalar c)
             = Some (tmap atanh x, l) /\
             Forall (fun u => c <= u) (data l)) /\
  (within 0 1 x ->
   exists l, forward E (Logit_ self) x (scalar c) = Some (tmap logit x, l) /\
             Forall (fun u => c <= u) (data l)).
Proof.
  intros Hx. cbn [forward].
  rewrite Tanh__forward_elementwise, ArcTanh__forward_elementwise.
  rewrite Expit__forward_elementwise, Logit__forward_elementwise
    by assumption.
  split; [|split; [|split]].
  - apply elementwise_entries with (P := fun s => 0 <= s);
      [assumption|lra|intros; lra| |intros; lra].
    intros v _. apply lncosh_nonneg.
  - apply elementwise_entries with (P := fun s => s <= 0);
      [assumption|lra|intros; lra| |intros; lra].
    intros v _. rewrite <- expit_logit_logJ.
    apply ln_unit_product_nonpos, expit_bounds.
  - intros _. apply elementwise_entries with (P := fun s => 0 <= s);
      [assumption|lra|intros; lra| |intros; lra].
    intros v _. apply lncosh_nonneg.
  - intros Hd. apply elementwise_entries with (P := fun s => s <= 0);
      [assumption|lra|intros; lra| |intros; lra].
    intros v Hv. apply ln_unit_product_nonpos.
    now apply within_In with x.
Qed.

Lemma squashing_lowers_the_log_density_witness :
  wf sample_2x2 /\
  exists l,
    forward scalar_mode (Tanh_ (Module___init__ None)) sample_2x2 (scalar 0)
    = Some (tmap tanh sample_2x2, l) /\
    Forall (fun u => u <= 0) (data l).
Proof.
  split; [reflexivity|].
  exact (proj1 (squashing_lowers_the_log_density scalar_mode
                  (Module___init__ None) sample_2x2 0 eq_refl)).
Defined.

(** X16 — Whatever the sample, every element that [Tanh_.forward] returns
    lies strictly between -1 and 1 and every element that [Expit_.forward]
    returns strictly between 0 and 1: the results are in the domains of
    [ArcTanh_] and [Logit_]. *)
Theorem squashing_ranges (E : Env) (self : attrs) (x log0 y l : tensor) :
  (forward E (Tanh_ self) x log0 = Some (y, l) -> within (-1) 1 y) /\
  (forward E (Expit_ self) x log0 = Some (y, l) -> within 0 1 y).
Proof.
  cbn [forward]. unfold Tanh__forward, Expit__forward. split.
  - split_binds. intros [= <- _]. unfold within. cbn [tmap data].
    apply Forall_forall. intros u Hu. apply in_map_iff in Hu.
    destruct Hu as [v [<- _]]. apply tanh_bounds.
  - split_binds. intros [= <- _]. unfold within. cbn [tmap data].
    apply Forall_forall. intros u Hu. apply in_map_iff in Hu.
    destruct Hu as [v [<- _]]. apply expit_bounds.
Qed.

(** ** The convertor and its accessors *)

(** X17 — On a constructed convertor the accessors answer by the options
    alone: there is a spline stage exactly when [knots_len > 1], a scale
    stage exactly when one of the two scale options is set, a sign-bias
    stage exactly when [sgnbias] is set.  [cdf_mapper] raises when there is
    no spline stage, and otherwise runs the spline stage whatever the other
    options are. *)
Theorem DistConvertor__lookup_by_options (E : Env) (k : Z)
  (symmetric : bool) (label : string)
  (sgnbias initial_scale final_scale : bool) (kw_spline_shape : list nat)
  (rand : R) (cdf : tensor) :
  let dc := DistConvertor___init__ k symmetric label sgnbias initial_scale
              final_scale kw_spline_shape rand in
  (get_spline_ dc = None <-> (k <= 1)%Z) /\
  (get_scale_ dc = None <-> initial_scale = false /\ final_scale = false) /\
  (get_sgnbias_ dc = None <-> sgnbias = false) /\
  ((k <= 1)%Z -> cdf_mapper E dc cdf = None) /\
  ((k > 1)%Z ->
   cdf_mapper E dc cdf
   = forward E
       (SplineNet___init__ "spline_"
          (if symmetric
           then mkConfig k (0.5, 1) (0.5, 1)
                  (Some [("left", "anti")]%string) kw_spline_shape
           else mkConfig k (0, 1) (0, 1) None kw_spline_shape))
       cdf (scalar 0)).
Proof.
  cbv zeta. unfold cdf_mapper, get_spline_, get_scale_, get_sgnbias_,
    DistConvertor___init__.
  destruct (k >? 1)%Z eqn:Hk.
  - apply Z.gtb_lt in Hk.
    destruct sgnbias, initial_scale, final_scale, symmetric;
      cbn [nets_ app];
      (split; [split; [discriminate|lia]|]);
      (split; [split; [try discriminate; try (now split)
                      |try (intros [? ?]; discriminate); reflexivity]|]);
      (split; [split; [try discriminate; reflexivity
                      |try discriminate; reflexivity]|]);
      (split; [lia|reflexivity]).
  - assert (Hle : (k <= 1)%Z).
    { destruct (Z.gtb_spec k 1); [discriminate|lia]. }
    destruct sgnbias, initial_scale, final_scale;
      cbn [nets_ app];
      (split; [split; [intros _; exact Hle|reflexivity]|]);
      (split; [split; [try discriminate; try (now split)
                      |try (intros [? ?]; discriminate); reflexivity]|]);
      (split; [split; [try discriminate; reflexivity
                      |try discriminate; reflexivity]|]);
      (split; [reflexivity|lia]).
Qed.

Lemma NoDup_map_injective (f : Module_ -> option string)
  (l : list Module_) (a b : Module_) :
  NoDup (map f l) -> In a l -> In b l -> f a = f b -> a = b.
Proof.
  induction l as [|c l IH]; intros Hn Ha Hb Hf; [now destruct Ha|].
  cbn [map] in Hn. inversion Hn as [|? ? Hnotin Hn']; subst.
  destruct Ha as [->|Ha], Hb as [->|Hb].
  - reflexivity.
  - exfalso. apply Hnotin. rewrite Hf. now apply in_map.
  - exfalso. apply Hnotin. rewrite <- Hf. now apply in_map.
  - now apply IH.
Qed.

Lemma DistConvertor__labels_NoDup (k : Z) (symmetric : bool)
  (lab : string) (sgnbias initial_scale final_scale : bool)
  (kw_spline_shape : list nat) (rand : R) :
  NoDup (map label_of
           (nets_ (DistConvertor___init__ k symmetric lab sgnbias
                     initial_scale final_scale kw_spline_shape rand))).
Proof.
  unfold DistConvertor___init__.
  destruct (k >? 1)%Z, sgnbias, initial_scale, final_scale;
    cbn [nets_ app map label_of attrs_of label Module___init__
         SgnBiasNet___init__ ScaleNet___init__ SplineNet___init__];
    repeat (constructor;
            [cbn [In]; intros H;
             repeat (destruct H as [H|H]; [discriminate H|]); exact H|]);
    constructor.
Qed.

(** X18 — The modules of a constructed convertor all carry a label and no
    two of them the same one: the module that an accessor returns is the
    only module of the convertor with that label. *)
Theorem DistConvertor__labels_are_distinct (k : Z) (symmetric : bool)
  (label : string) (sgnbias initial_scale final_scale : bool)
  (kw_spline_shape : list nat) (rand : R) :
  let nets := nets_ (DistConvertor___init__ k symmetric label sgnbias
                       initial_scale final_scale kw_spline_shape rand) in
  NoDup (map label_of nets) /\
  Forall (fun m => label_of m <> None) nets /\
  (length nets <= 5)%nat /\
  (forall tag m m',
     scan_label tag nets = Some m ->
     In m' nets -> label_of m' = Some tag -> m' = m).
Proof.
  cbv zeta. split; [apply DistConvertor__labels_NoDup|].
  split; [|split].
  - unfold DistConvertor___init__.
    destruct (k >? 1)%Z, sgnbias, initial_scale, final_scale;
      cbn [nets_ app]; repeat constructor; discriminate.
  - unfold DistConvertor___init__.
    destruct (k >? 1)%Z, sgnbias, initial_scale, final_scale;
      cbn [nets_ app length]; lia.
  - intros tag m m' Hscan Hin Hlab.
    apply scan_label_Some in Hscan.
    destruct Hscan as [before [after [Hnets [Hm _]]]].
    apply (NoDup_map_injective label_of _ m' m
             (DistConvertor__labels_NoDup k symmetric label sgnbias
                initial_scale final_scale kw_spline_shape rand));
      [assumption| |congruence].
    rewrite Hnets. apply in_or_app. right. now left.
Qed.

(** ** The wrapper, once more *)

Lemma set_sum_density_label (m : Module_) (f : sum_density_attr) :
  label_of (set_sum_density m f) = label_of m.
Proof. now destruct m. Qed.

Lemma set_sum_density_twice (m : Module_) (f g : sum_density_attr) :
  set_sum_density (set_sum_density m f) g = set_sum_density m g.
Proof. now destruct m. Qed.

(** X19 — Wrapping an inner module that a wrapper has already been built
    around: the second wrapper saves the identity that the first one
    installed, so that it reduces nothing, in [forward] and in [backward],
    whatever the reduction mode. *)
Theorem MaskedWrapperNet___second_wrapper_reduces_nothing
  (net_ : Module_) (mask1 mask2 : Mask) (W1 net_' : Module_) :
  MaskedWrapperNet___init__ net_ mask1 = Some (W1, net_') ->
  exists self2,
    MaskedWrapperNet___init__ net_' mask2
    = Some (MaskedWrapperNet_ self2 net_' mask2 IdentityLambda, net_') /\
    forall E x log0,
      forward E (MaskedWrapperNet_ self2 net_' mask2 IdentityLambda) x log0
      = spec_masked_transform mask2 (forward E net_') (fun d => d) x log0 /\
      backward E (MaskedWrapperNet_ self2 net_' mask2 IdentityLambda) x log0
      = spec_masked_transform mask2 (backward E net_') (fun d => d) x log0.
Proof.
  unfold MaskedWrapperNet___init__. intros H.
  destruct (label_of net_) as [l|] eqn:Hl; [|discriminate].
  cbn [bind] in H. injection H as _ <-.
  rewrite set_sum_density_label, Hl. cbn [bind].
  rewrite sum_density_of_set, set_sum_density_twice.
  eexists. split; [reflexivity|].
  intros E x log0. split; reflexivity.
Qed.

Lemma MaskedWrapperNet___second_wrapper_reduces_nothing_witness :
  MaskedWrapperNet___init__ (Tanh_ (Module___init__ (Some "tanh_"%string)))
    (lane_mask mask_2)
  = Some (wrapped_tanh (lane_mask mask_2),
          Tanh_ (mkAttrs (Some "tanh_"%string) IdentityLambda)) /\
  exists self2,
    MaskedWrapperNet___init__
      (Tanh_ (mkAttrs (Some "tanh_"%string) IdentityLambda))
      (lane_mask mask_3)
    = Some (MaskedWrapperNet_ self2
              (Tanh_ (mkAttrs (Some "tanh_"%string) IdentityLambda))
              (lane_mask mask_3) IdentityLambda,
            Tanh_ (mkAttrs (Some "tanh_"%string) IdentityLambda)).
Proof.
  split; [reflexivity|].
  destruct (MaskedWrapperNet___second_wrapper_reduces_nothing
              (Tanh_ (Module___init__ (Some "tanh_"%string)))
              (lane_mask mask_2) (lane_mask mask_3) _ _ eq_refl)
    as [self2 [H _]].
  exists self2. exact H.
Defined.

Lemma elementwise_shape_override (E : Env) (f g k : R -> R) (x : tensor) :
  wf x ->
  exists l,
    elementwise E IdentityLambda f g k x (scalar 0) = Some (tmap f x, l) /\
    shape l = shape x.
Proof.
  intros Hx. unfold elementwise, tadd. cbn [call_sum_density].
  rewrite tbin_scalar_l by (repeat apply wf_tmap; assumption).
  eexists. split; reflexivity.
Qed.

(** X21 — Under the wrapper's override and with densities summed per batch
    item, the four saturating modules return a per-element density from
    [forward] but a density already summed per batch item from [backward],
    which goes through a new instance of the dual class. *)
Theorem saturating_backward_reduces_under_override (E : Env)
  (lab : option string) (x : tensor) (b : nat) (rest : list nat) :
  wf x -> shape x = b :: rest -> propagate_density E = false ->
  forall M, In M [Tanh_; ArcTanh_; Expit_; Logit_] ->
    exists y l z l',
      forward E (M (mkAttrs lab IdentityLambda)) x (scalar 0) = Some (y, l) /\
      shape l = b :: rest /\
      backward E (M (mkAttrs lab IdentityLambda)) x (scalar 0)
      = Some (z, l') /\
      shape l' = [b].
Proof.
  intros Hx Hs Hp M HM.
  assert (Hb : forall f g k,
            exists l', elementwise E ClassReduction f g k x (scalar 0)
                       = Some (tmap f x, l') /\ shape l' = [b]).
  { intros f g k.
    destruct (elementwise_shape E f g k x b rest Hx Hs) as [l' [H1 H2]].
    exists l'. split; [exact H1|]. now rewrite Hp in H2. }
  assert (Hf : forall f g k,
            exists l, elementwise E IdentityLambda f g k x (scalar 0)
                      = Some (tmap f x, l) /\ shape l = b :: rest).
  { intros f g k.
    destruct (elementwise_shape_override E f g k x Hx) as [l [H1 H2]].
    exists l. split; [exact H1|]. now rewrite H2. }
  cbn [In] in HM.
  destruct HM as [<-|[<-|[<-|[<-|[]]]]]; cbn [forward backward];
    unfold Tanh__backward, ArcTanh__backward, Expit__backward,
      Logit__backward;
    rewrite ?Tanh__forward_elementwise, ?ArcTanh__forward_elementwise;
    rewrite ?Expit__forward_elementwise, ?Logit__forward_elementwise
      by assumption;
    cbn [sum_density Module___init__];
    match goal with
    | |- exists y l z l',
           elementwise _ _ ?f1 ?g1 ?k1 _ _ = _ /\ _ /\
           elementwise _ _ ?f2 ?g2 ?k2 _ _ = _ /\ _ =>
        destruct (Hf f1 g1 k1) as [l [H1 H2]];
        destruct (Hb f2 g2 k2) as [l' [H3 H4]];
        exists (tmap f1 x), l, (tmap f2 x), l'; auto
    end.
Qed.

Lemma saturating_backward_reduces_under_override_witness :
  wf sample_2x2 /\ shape sample_2x2 = [2%nat; 2%nat] /\
  propagate_density scalar_mode = false /\
  exists y l z l',
    forward scalar_mode (Tanh_ (mkAttrs None IdentityLambda)) sample_2x2
      (scalar 0) = Some (y, l) /\
    shape l = [2%nat; 2%nat] /\
    backward scalar_mode (Tanh_ (mkAttrs None IdentityLambda)) sample_2x2
      (scalar 0) = Some (z, l') /\
    shape l' = [2%nat].
Proof.
  split; [reflexivity|]. split; [reflexivity|]. split; [reflexivity|].
  apply (saturating_backward_reduces_under_override scalar_mode None
           sample_2x2 2 [2%nat] eq_refl eq_refl eq_refl Tanh_).
  now left.
Defined.

(** ** Shapes *)

Lemma reshape_inv (t : tensor) (s : list nat) (r : tensor) :
  reshape t s = Some r ->
  r = mkT s (data t) /\ length (data t) = numel s.
Proof.
  unfold reshape. destruct (Nat.eqb _ _) eqn:H; [|discriminate].
  intros [= <-]. split; [reflexivity|now apply Nat.eqb_eq].
Qed.

Lemma reshape_misfit (t : tensor) (s : list nat) :
  length (data t) <> numel s -> reshape t s = None.
Proof.
  intros H. unfold reshape. apply Nat.eqb_neq in H. now rewrite H.
Qed.

Lemma SplineNet__apply_zero_rank (E : Env) (self : attrs)
  (cfg : SplineNet_config)
  (evaluate : tensor -> option (tensor * tensor)) (x log0 : tensor) :
  spline_shape cfg = [] ->
  (forall y l,
     SplineNet__apply E self cfg evaluate x log0 = Some (y, l) ->
     shape y = shape x /\ wf y /\
     exists fx g, evaluate (ravel x) = Some (fx, g) /\ data y = data fx) /\
  (forall fx g,
     evaluate (ravel x) = Some (fx, g) ->
     length (data fx) <> numel (shape x) ->
     SplineNet__apply E self cfg evaluate x log0 = None).
Proof.
  intros Hz. unfold SplineNet__apply. rewrite Hz.
  cbn [length Nat.ltb Nat.leb]. split.
  - intros y l H.
    destruct (evaluate (ravel x)) as [[fx g]|]; [|discriminate].
    cbn [bind] in H.
    destruct (reshape fx (shape x)) as [fx'|] eqn:Hfx; [|discriminate].
    cbn [bind] in H.
    destruct (reshape g (shape x)) as [g'|]; [|discriminate].
    cbn [bind] in H.
    destruct (tadd log0 _) as [l'|]; [|discriminate].
    cbn [bind] in H. injection H as <- _.
    apply reshape_inv in Hfx. destruct Hfx as [-> Hlen].
    split; [reflexivity|]. split; [exact Hlen|].
    now exists fx, g.
  - intros fx g Hev Hlen. rewrite Hev. cbn [bind].
    now rewrite reshape_misfit.
Qed.

(** X20 — A spline module with [spline_shape=[]] hands the evaluator the
    flattened sample, and whatever shape the values come back in, a sample
    that [forward] or [backward] returns has the shape of [x] and the
    values of the evaluator; values in a number that does not fit the shape
    of [x] make the call raise. *)
Theorem SplineNet__zero_rank_restores_shape (E : Env) (self : attrs)
  (cfg : SplineNet_config) (x log0 : tensor) :
  spline_shape cfg = [] ->
  (forall y l,
     forward E (SplineNet_ self cfg) x log0 = Some (y, l) ->
     shape y = shape x /\ wf y /\
     exists fx g, spline_call (make_spline E cfg) (ravel x) = Some (fx, g) /\
                  data y = data fx) /\
  (forall fx g,
     spline_call (make_spline E cfg) (ravel x) = Some (fx, g) ->
     length (data fx) <> numel (shape x) ->
     forward E (SplineNet_ self cfg) x log0 = None) /\
  (forall y l,
     backward E (SplineNet_ self cfg) x log0 = Some (y, l) ->
     shape y = shape x /\ wf y /\
     exists fx g,
       spline_backward (make_spline E cfg) (ravel x) = Some (fx, g) /\
       data y = data fx) /\
  (forall fx g,
     spline_backward (make_spline E cfg) (ravel x) = Some (fx, g) ->
     length (data fx) <> numel (shape x) ->
     backward E (SplineNet_ self cfg) x log0 = None).
Proof.
  intros Hz. cbn [forward backward].
  unfold SplineNet__forward, SplineNet__backward.
  destruct (SplineNet__apply_zero_rank E self cfg
              (spline_call (make_spline E cfg)) x log0 Hz) as [H1 H2].
  destruct (SplineNet__apply_zero_rank E self cfg
              (spline_backward (make_spline E cfg)) x log0 Hz) as [H3 H4].
  auto.
Qed.

Lemma SplineNet__zero_rank_restores_shape_witness :
  spline_shape unit_config = [] /\
  exists y l,
    forward scalar_mode (SplineNet_ (Module___init__ None) unit_config)
      sample_2x2 (scalar 0) = Some (y, l) /\
    shape y = shape sample_2x2 /\ wf y.
Proof.
  split; [reflexivity|].
  pose proof (eq_refl : forward scalar_mode
                          (SplineNet_ (Module___init__ None) unit_config)
                          sample_2x2 (scalar 0) = Some (_, _)) as Hf.
  destruct (proj1 (SplineNet__zero_rank_restores_shape scalar_mode
                     (Module___init__ None) unit_config sample_2x2
                     (scalar 0) eq_refl) _ _ Hf) as [H1 [H2 _]].
  do 2 eexists. split; [exact Hf|]. split; [exact H1|exact H2].
Defined.

(** X22 — The modules that act on each element by itself keep the sample
    in shape: on a well-formed sample with at least one axis, whatever
    [forward] or [backward] returns is well formed and has the shape of
    the sample. *)
Theorem elementwise_modules_keep_the_shape (E : Env) (m : Module_)
  (x log0 y l : tensor) :
  acts_on_each_element m -> wf x -> shape x <> [] ->
  (forward E m x log0 = Some (y, l) -> wf y /\ shape y = shape x) /\
  (backward E m x log0 = Some (y, l) -> wf y /\ shape y = shape x).
Proof.
  intros Hm Hx Hs.
  assert (Hmap : forall f, wf (tmap f x) /\ shape (tmap f x) = shape x)
    by (intros f; split; [now apply wf_tmap|reflexivity]).
  destruct m; cbn [acts_on_each_element] in Hm; try contradiction;
    try (match type of Hm with
         | ex _ =>
             destruct Hm as [w0 ->];
             rewrite SgnBiasNet__forward_value, SgnBiasNet__backward_value
               by assumption;
             split; intros [= <- _]; apply Hmap
         end);
    cbn [forward backward].
  - split; intros [= <- _]; now split.
  - split; intros [= <- _]; rewrite clone_id; now split.
  - unfold ScaleNet__forward, ScaleNet__backward, tmul, tdiv.
    change (tmap exp (logw_tensor logw)) with (mkT [1%nat] [exp logw]).
    rewrite !tbin_one_r by assumption. cbn [bind].
    split; split_binds; intros [= <- _]; apply Hmap.
  - unfold Tanh__backward, Tanh__forward, ArcTanh__forward.
    split; split_binds; intros [= <- _]; apply Hmap.
  - unfold ArcTanh__backward, Tanh__forward, ArcTanh__forward.
    split; split_binds; intros [= <- _]; apply Hmap.
  - unfold Expit__backward, Expit__forward, Logit__forward, tdiv.
    rewrite tbin_tmap_r by assumption. cbn [bind].
    split; split_binds; intros [= <- _]; try apply Hmap.
    rewrite tmap_tmap. apply Hmap.
  - unfold Logit__backward, Expit__forward, Logit__forward, tdiv.
    rewrite tbin_tmap_r by assumption. cbn [bind].
    split; split_binds; intros [= <- _]; try apply Hmap.
    rewrite tmap_tmap. apply Hmap.
Qed.

Lemma elementwise_modules_keep_the_shape_witness :
  acts_on_each_element (Logit_ (Module___init__ None)) /\
  wf sample_1x2 /\ shape sample_1x2 <> [] /\
  exists y l,
    backward density_mode (Logit_ (Module___init__ None)) sample_1x2
      (scalar 0) = Some (y, l) /\
    wf y /\ shape y = shape sample_1x2.
Proof.
  split; [exact I|]. split; [reflexivity|]. split; [discriminate|].
  pose proof (eq_refl : backward density_mode (Logit_ (Module___init__ None))
                          sample_1x2 (scalar 0) = Some (_, _)) as Hb.
  destruct (proj2 (elementwise_modules_keep_the_shape density_mode
                     (Logit_ (Module___init__ None)) sample_1x2 (scalar 0)
                     _ _ I eq_refl ltac:(discriminate)) Hb) as [H1 H2].
  do 2 eexists. split; [exact Hb|]. split; [exact H1|exact H2].
Defined.

(** ** Witnesses of the round trips *)

Lemma roundtrip_elementary_witness :
  wf sample_1x2 /\ shape sample_1x2 <> [] /\
  elementary (Tanh_ (Module___init__ None)) /\
  in_domain (Tanh_ (Module___init__ None)) sample_1x2 /\
  round_trip scalar_mode (Tanh_ (Module___init__ None)) sample_1x2 0.
Proof.
  split; [reflexivity|]. split; [discriminate|].
  split; [reflexivity|]. split; [exact I|].
  apply roundtrip_elementary;
    [reflexivity|discriminate|reflexivity|exact I].
Defined.

Lemma roundtrip_SplineNet__witness :
  wf sample_2x2 /\
  spline_contract (make_spline scalar_mode unit_config) /\
  round_trip scalar_mode (SplineNet_ (Module___init__ None) unit_config)
    sample_2x2 0.
Proof.
  split; [reflexivity|]. split; [exact identity_spline_contract|].
  apply roundtrip_SplineNet_;
    [reflexivity|exact identity_spline_contract|discriminate].
Defined.

(** ** More on the assembly of the convertor *)

(** X23 — Without a spline stage ([knots_len <= 1]) the convertor is the
    optional sign-bias stage followed by at most one scale stage, and the
    two scale options build the same convertor. *)
Theorem DistConvertor__without_spline (k : Z) (symmetric : bool)
  (label : string) (sgnbias initial_scale final_scale : bool)
  (kw_spline_shape : list nat) (rand : R) :
  (k <= 1)%Z ->
  nets_ (DistConvertor___init__ k symmetric label sgnbias initial_scale
           final_scale kw_spline_shape rand)
  = (if sgnbias then [SgnBiasNet___init__ [1%nat] [rand] "sgnbias_"]
     else [])
    ++ (if initial_scale || final_scale then [ScaleNet___init__ "scale_"]
        else []) /\
  DistConvertor___init__ k symmetric label sgnbias true false
    kw_spline_shape rand
  = DistConvertor___init__ k symmetric label sgnbias false true
      kw_spline_shape rand.
Proof.
  intros Hk. unfold DistConvertor___init__.
  assert (Hb : (k >? 1)%Z = false).
  { destruct (Z.gtb_spec k 1); [lia|reflexivity]. }
  rewrite Hb. split.
  - destruct sgnbias, initial_scale, final_scale; reflexivity.
  - reflexivity.
Qed.

Lemma DistConvertor__without_spline_witness :
  (0 <= 1)%Z /\
  DistConvertor___init__ 0 false "dc_" true true false [] (1 / 2)
  = DistConvertor___init__ 0 false "dc_" true false true [] (1 / 2).
Proof.
  split; [discriminate|].
  exact (proj2 (DistConvertor__without_spline 0 false "dc_" true true true
                  [] (1 / 2) ltac:(discriminate))).
Defined.

(** X24 — A [SgnBiasNet_] as its constructor leaves it, the number drawn by
    [torch.rand] lying in [[0, 1)]: [forward] moves no element by as much
    as one hundredth. *)
Theorem SgnBiasNet__fresh_shift_is_small (E : Env) (label : string)
  (rand : R) (x log0 : tensor) :
  0 <= rand < 1 -> wf x -> shape x <> [] ->
  exists y,
    forward E (SgnBiasNet___init__ [1%nat] [rand] label) x log0
    = Some (y, log0) /\
    Forall2 (fun v u => Rabs (u - v) < 1 / 100) (data x) (data y).
Proof.
  intros Hr Hx Hs. unfold SgnBiasNet___init__.
  change (tmap (fun u => u / 10) (mkT [1%nat] [rand]))
    with (mkT [1%nat] [rand / 10]).
  rewrite SgnBiasNet__forward_value by assumption.
  eexists. split; [reflexivity|]. cbn [tmap data].
  assert (Hsq : 0 <= (rand / 10) ^ 2 < 1 / 100) by (simpl; nra).
  induction (data x) as [|v d IH]; cbn [map]; constructor; [|exact IH].
  replace (v + sgn v * (rand / 10) ^ 2 - v) with (sgn v * (rand / 10) ^ 2)
    by ring.
  destruct (sgn_cases v) as [[_ ->]|[[_ ->]|[_ ->]]].
  - rewrite Rabs_left1 by lra. lra.
  - rewrite Rmult_0_l, Rabs_R0. lra.
  - rewrite Rabs_right by lra. lra.
Qed.

Lemma SgnBiasNet__fresh_shift_is_small_witness :
  0 <= 1 / 2 < 1 /\ wf sample_1x2 /\ shape sample_1x2 <> [] /\
  exists y,
    forward scalar_mode (SgnBiasNet___init__ [1%nat] [1 / 2] "sgnbias_")
      sample_1x2 (scalar 0) = Some (y, scalar 0) /\
    Forall2 (fun v u => Rabs (u - v) < 1 / 100) (data sample_1x2) (data y).
Proof.
  assert (Hr : 0 <= 1 / 2 < 1) by lra.
  split; [exact Hr|]. split; [reflexivity|]. split; [discriminate|].
  apply SgnBiasNet__fresh_shift_is_small;
    [exact Hr|reflexivity|discriminate].
Defined.

(** ** The wrapper around [Tanh_] when densities are propagated *)

Lemma zipWith_map_out (g : R -> R) (h : R -> R -> R) (l1 l2 : list R) :
  map g (zipWith h l1 l2) = zipWith (fun u v => g (h u v)) l1 l2.
Proof.
  revert l2; induction l1 as [|a l1 IH]; intros [|b l2]; cbn;
    try reflexivity.
  now rewrite IH.
Qed.

Lemma zipWith_nest (f h : R -> R -> R) (l1 l2 : list R) :
  zipWith f l1 (zipWith h l1 l2) = zipWith (fun u v => f u (h u v)) l1 l2.
Proof.
  revert l2; induction l1 as [|a l1 IH]; intros [|b l2]; cbn;
    try reflexivity.
  now rewrite IH.
Qed.

Lemma zipWith_plus (a b : R -> R -> R) (l1 l2 : list R) :
  zipWith Rplus (zipWith a l1 l2) (zipWith b l1 l2)
  = zipWith (fun u v => a u v + b u v) l1 l2.
Proof.
  revert l2; induction l1 as [|x l1 IH]; intros [|y l2]; cbn;
    try reflexivity.
  now rewrite IH.
Qed.

Lemma zipWith_binary_ext (h k : R -> R -> R) (l1 l2 : list R) :
  Forall (fun u => u = 0 \/ u = 1) l1 ->
  (forall v, h 0 v = k 0 v) -> (forall v, h 1 v = k 1 v) ->
  zipWith h l1 l2 = zipWith k l1 l2.
Proof.
  intros Hb H0 H1. revert l2.
  induction Hb as [|u l1 Hu Hb IH]; intros [|v l2]; cbn; try reflexivity.
  rewrite IH. f_equal. destruct Hu as [-> | ->]; auto.
Qed.

Lemma zipWith_snd (l1 l2 : list R) :
  length l2 = length l1 -> zipWith (fun _ v => v) l1 l2 = l2.
Proof.
  revert l2; induction l1 as [|a l1 IH]; intros [|b l2] H; cbn in *;
    try reflexivity; try discriminate.
  f_equal. apply IH. now injection H.
Qed.

Lemma fits_intro (m x : tensor) :
  shape x = shape m -> length (data x) = length (data m) ->
  fits m x = true.
Proof.
  intros Hs Hl. unfold fits. rewrite Hs, Hl, Nat.eqb_refl.
  rewrite andb_true_r. clear. induction (shape m) as [|a s IH];
    [reflexivity|].
  cbn. now rewrite Nat.eqb_refl, IH.
Qed.

(** What the wrapper computes around an inner call that acts on each
    element by [f] and returns the per-element density [G]. *)
Lemma masked_elementwise_value (m : tensor) (f G : R -> R)
  (inner : tensor -> tensor -> option (tensor * tensor))
  (reduce : tensor -> tensor) (x log0 : tensor) :
  wf x -> fits m x = true ->
  (forall t, wf t -> inner t (scalar 0) = Some (tmap f t, tmap G t)) ->
  (forall d, reduce d = d) ->
  spec_masked_transform (checked_lane_mask m) inner reduce x log0
  = let* l := tadd log0
                (mkT (shape x)
                   (zipWith (fun u v => u * G (u * v)) (data m) (data x))) in
    Some (mkT (shape x)
            (zipWith (fun u v => u * f (u * v) + (1 - u) * v)
               (data m) (data x)),
          l).
Proof.
  intros Hx Hfit Hinner Hred.
  destruct (fits_inv m x Hfit) as [Hs Hl].
  unfold spec_masked_transform.
  cbn [split purify cat checked_lane_mask Nat.eqb]. rewrite Hfit.
  cbn [bind].
  assert (Hla : length (zipWith Rmult (data m) (data x))
                = length (data m)) by now apply zipWith_length_l.
  assert (Hlg : forall g,
            length (zipWith Rmult (data m)
                      (map g (zipWith Rmult (data m) (data x))))
            = length (data m)).
  { intros g. apply zipWith_length_l. now rewrite length_map. }
  assert (Hlr : length (zipWith (fun u v => (1 - u) * v) (data m) (data x))
                = length (data m)) by now apply zipWith_length_l.
  rewrite Hinner
    by (unfold wf in *; cbn [shape data]; now rewrite Hla, <- Hl).
  cbn [bind].
  rewrite (fits_intro m (tmap f _))
    by (cbn [tmap shape data];
        first [exact Hs|now rewrite length_map]).
  cbn [bind tmap shape data].
  rewrite (fits_intro m (tmap G _))
    by (cbn [tmap shape data];
        first [exact Hs|now rewrite length_map]).
  cbn [bind shape data].
  rewrite (fits_intro m (mkT (shape x) (zipWith Rmult _ (map f _))))
    by (cbn [shape data]; first [exact Hs|apply Hlg]).
  rewrite (fits_intro m (mkT (shape x) (zipWith _ _ (data x))))
    by (cbn [shape data]; first [exact Hs|exact Hlr]).
  cbn [bind andb shape data]. rewrite Hred.
  rewrite !zipWith_map_out, !zipWith_nest, zipWith_plus.
  reflexivity.
Qed.

Lemma elementwise_unreduced (E : Env) (reduce : sum_density_attr)
  (f g k : R -> R) (x : tensor) :
  (forall d, call_sum_density E reduce d = d) -> wf x ->
  elementwise E reduce f g k x (scalar 0)
  = Some (tmap f x, tmap (fun v => 0 + k (g v)) x).
Proof.
  intros Hr Hx. unfold elementwise, tadd. rewrite Hr.
  rewrite tbin_scalar_l by (repeat apply wf_tmap; assumption).
  cbn [bind]. now rewrite !tmap_tmap.
Qed.

Lemma zipWith_const_all_equal (c : R) (s : list nat) (l1 l2 : list R) :
  all_equal c (mkT s (zipWith (fun _ _ => c) l1 l2)).
Proof.
  unfold all_equal. cbn [data]. revert l2.
  induction l1 as [|a l1 IH]; intros [|b l2]; cbn; constructor; auto.
Qed.

(** X25 — With densities propagated per element, the wrapper around
    [Tanh_] with a mask of zeros and ones is a bijection on the samples of
    the mask's shape: [backward] applied to the result of [forward] returns
    the sample, and a log-density whose entries are all the number that
    [forward] was given. *)
Theorem wrapped_tanh_roundtrip_when_propagated (E : Env) (m x : tensor)
  (c : R) :
  propagate_density E = true ->
  Forall (fun u => u = 0 \/ u = 1) (data m) ->
  wf x -> fits m x = true ->
  round_trip E (wrapped_tanh (checked_lane_mask m)) x c.
Proof.
  intros Hp Hbin Hx Hfit.
  destruct (fits_inv m x Hfit) as [Hs Hl].
  assert (Hred : forall d, call_sum_density E ClassReduction d = d).
  { intros d. cbn [call_sum_density]. unfold Module__sum_density.
    now rewrite Hp. }
  set (inner := Tanh_ (mkAttrs (Some "tanh_"%string) IdentityLambda)).
  assert (Hfw : forall t, wf t ->
            forward E inner t (scalar 0)
            = Some (tmap tanh t, tmap (fun v => 0 + -2 * lncosh v) t)).
  { intros t Ht. unfold inner. cbn [forward].
    rewrite Tanh__forward_elementwise.
    now apply elementwise_unreduced. }
  assert (Hbw : forall t, wf t ->
            backward E inner t (scalar 0)
            = Some (tmap atanh t,
                    tmap (fun v => 0 + 2 * lncosh (atanh v)) t)).
  { intros t Ht. unfold inner. cbn [backward]. unfold Tanh__backward.
    rewrite ArcTanh__forward_elementwise.
    now apply elementwise_unreduced. }
  set (Y := zipWith (fun u v => u * tanh (u * v) + (1 - u) * v)
              (data m) (data x)).
  set (Q := zipWith (fun u v => u * (0 + -2 * lncosh (u * v)))
              (data m) (data x)).
  assert (HlY : length Y = length (data m))
    by (unfold Y; now apply zipWith_length_l).
  assert (HlQ : length Q = length (data m))
    by (unfold Q; now apply zipWith_length_l).
  assert (Hnum : length (data m) = numel (shape x))
    by (unfold wf in Hx; now rewrite <- Hl).
  assert (HwY : wf (mkT (shape x) Y))
    by (unfold wf; cbn [shape data]; now rewrite HlY).
  assert (HfY : fits m (mkT (shape x) Y) = true)
    by (apply fits_intro; cbn [shape data]; assumption).
  exists (mkT (shape x) Y), (tmap (Rplus c) (mkT (shape x) Q)),
         (mkT (shape x) (zipWith (fun _ _ => c) (data m) (data x))).
  split; [|split].
  - change (forward E (wrapped_tanh (checked_lane_mask m)) x (scalar c))
      with (spec_masked_transform (checked_lane_mask m) (forward E inner)
              (call_sum_density E ClassReduction) x (scalar c)).
    rewrite (masked_elementwise_value m tanh
               (fun v => 0 + -2 * lncosh v)) by assumption.
    fold Y Q. unfold tadd.
    rewrite tbin_scalar_l
      by (unfold wf; cbn [shape data]; now rewrite HlQ).
    reflexivity.
  - change (backward E (wrapped_tanh (checked_lane_mask m))
              (mkT (shape x) Y) (tmap (Rplus c) (mkT (shape x) Q)))
      with (spec_masked_transform (checked_lane_mask m) (backward E inner)
              (call_sum_density E ClassReduction) (mkT (shape x) Y)
              (tmap (Rplus c) (mkT (shape x) Q))).
    rewrite (masked_elementwise_value m atanh
               (fun v => 0 + 2 * lncosh (atanh v))) by assumption.
    cbn [shape data]. unfold tadd.
    rewrite tbin_same;
      [|unfold wf; cbn [tmap shape data]; now rewrite length_map, HlQ
       |unfold wf; cbn [shape data];
        rewrite zipWith_length_l; [assumption|exact HlY]
       |reflexivity].
    cbn [bind tmap shape data]. unfold Y, Q.
    rewrite !zipWith_map_out, !zipWith_nest, zipWith_plus.
    f_equal. f_equal.
    + destruct x as [sx dx]. cbn [shape data] in *. f_equal.
      rewrite <- (zipWith_snd (data m) dx) at 2 by assumption.
      apply zipWith_binary_ext; [assumption| |]; intros v.
      * ring.
      * rewrite atanh_active_lane. ring.
    + f_equal. apply zipWith_binary_ext; [assumption| |]; intros v.
      * ring.
      * rewrite atanh_active_lane. replace (1 * v) with v by ring. ring.
  - apply zipWith_const_all_equal.
Qed.

Lemma wrapped_tanh_roundtrip_when_propagated_witness :
  propagate_density density_mode = true /\
  Forall (fun u => u = 0 \/ u = 1) (data mask_1x2) /\
  wf sample_1x2 /\ fits mask_1x2 sample_1x2 = true /\
  round_trip density_mode (wrapped_tanh (checked_lane_mask mask_1x2))
    sample_1x2 0.
Proof.
  split; [reflexivity|]. split; [exact mask_1x2_binary|].
  split; [reflexivity|]. split; [reflexivity|].
  apply wrapped_tanh_roundtrip_when_propagated;
    [reflexivity|exact mask_1x2_binary|reflexivity|reflexivity].
Defined.

(** ** Witnesses on concrete samples *)

Lemma sample_does_not_depend_on_log_density_witness :
  exists y1 o1 y2 o2,
    forward scalar_mode (wrapped_tanh (lane_mask mask_2)) sample_2x2
      (scalar 0) = Some (y1, o1) /\
    forward scalar_mode (wrapped_tanh (lane_mask mask_2)) sample_2x2
      (scalar 1) = Some (y2, o2) /\
    y1 = y2.
Proof.
  pose proof (eq_refl : forward scalar_mode (wrapped_tanh (lane_mask mask_2))
                          sample_2x2 (scalar 0) = Some (_, _)) as H1.
  pose proof (eq_refl : forward scalar_mode (wrapped_tanh (lane_mask mask_2))
                          sample_2x2 (scalar 1) = Some (_, _)) as H2.
  do 4 eexists. split; [exact H1|]. split; [exact H2|].
  exact (proj1 (sample_does_not_depend_on_log_density scalar_mode _ _ _ _
                  _ _ _ _) H1 H2).
Defined.

Lemma squashing_ranges_witness :
  exists y l,
    forward scalar_mode (Expit_ (Module___init__ None)) sample_2x2
      (scalar 0) = Some (y, l) /\
    within 0 1 y.
Proof.
  pose proof (eq_refl : forward scalar_mode (Expit_ (Module___init__ None))
                          sample_2x2 (scalar 0) = Some (_, _)) as H.
  do 2 eexists. split; [exact H|].
  exact (proj2 (squashing_ranges scalar_mode _ _ _ _ _) H).
Defined.

(** ** The elementwise maps are increasing *)

Lemma ratio_increasing (a b p q : R) :
  0 < q -> 0 < b -> a * q < p * b -> a / b < p / q.
Proof.
  intros Hq Hb H.
  apply Rmult_lt_reg_r with (b * q); [nra|].
  replace (a / b * (b * q)) with (a * q) by (field; lra).
  replace (p / q * (b * q)) with (p * b) by (field; lra).
  exact H.
Qed.

Lemma tanh_increasing (u v : R) : u < v -> tanh u < tanh v.
Proof.
  intros H. rewrite !tanh_exp.
  pose proof (exp_pos u). pose proof (exp_pos v).
  pose proof (exp_increasing u v H).
  apply ratio_increasing; nra.
Qed.

Lemma atanh_increasing (u v : R) :
  -1 < u < 1 -> -1 < v < 1 -> u < v -> atanh u < atanh v.
Proof.
  intros Hu Hv H. unfold atanh.
  apply Rmult_lt_compat_r; [lra|].
  apply ln_increasing.
  - apply Rdiv_lt_0_compat; lra.
  - apply ratio_increasing; nra.
Qed.

Lemma expit_increasing (u v : R) : u < v -> expit u < expit v.
Proof.
  intros H. unfold expit.
  pose proof (exp_pos (- u)). pose proof (exp_pos (- v)).
  assert (exp (- v) < exp (- u)) by (apply exp_increasing; lra).
  apply ratio_increasing; lra.
Qed.

Lemma logit_increasing (u v : R) :
  0 < u < 1 -> 0 < v < 1 -> u < v -> logit u < logit v.
Proof.
  intros Hu Hv H. unfold logit. apply ln_increasing.
  - apply Rdiv_lt_0_compat; lra.
  - apply ratio_increasing; nra.
Qed.

Lemma sgnbias_increasing (c u v : R) :
  0 <= c -> u < v -> u + sgn u * c < v + sgn v * c.
Proof.
  intros Hc H.
  destruct (sgn_cases u) as [[? ->]|[[? ->]|[? ->]]];
    destruct (sgn_cases v) as [[? ->]|[[? ->]|[? ->]]]; nra.
Qed.

Lemma forward_is_sample_map (E : Env) (m : Module_) (x log0 y l : tensor) :
  acts_on_each_element m -> wf x -> shape x <> [] ->
  forward E m x log0 = Some (y, l) -> y = tmap (sample_map m) x.
Proof.
  intros Hm Hx Hs.
  destruct m; cbn [acts_on_each_element] in Hm; try contradiction;
    try (match type of Hm with
         | ex _ =>
             destruct Hm as [w0 ->];
             rewrite SgnBiasNet__forward_value by assumption;
             now intros [= <- _]
         end);
    cbn [forward sample_map].
  - intros [= <- _]. now rewrite tmap_id.
  - intros [= <- _]. now rewrite clone_id, tmap_id.
  - unfold ScaleNet__forward, tmul.
    change (tmap exp (logw_tensor logw)) with (mkT [1%nat] [exp logw]).
    rewrite tbin_one_r by assumption. cbn [bind].
    split_binds. now intros [= <- _].
  - unfold Tanh__forward. split_binds. now intros [= <- _].
  - unfold ArcTanh__forward. split_binds. now intros [= <- _].
  - unfold Expit__forward. split_binds. now intros [= <- _].
  - unfold Logit__forward, tdiv.
    rewrite tbin_tmap_r by assumption. cbn [bind].
    split_binds. intros [= <- _]. now rewrite tmap_tmap.
Qed.

Lemma Forall2_Rlt_map (f : R -> R) (D : R -> Prop) (l1 l2 : list R) :
  (forall u v, D u -> D v -> u < v -> f u < f v) ->
  Forall D l1 -> Forall D l2 ->
  Forall2 Rlt l1 l2 -> Forall2 Rlt (map f l1) (map f l2).
Proof.
  intros Hf H1 H2 H. induction H as [|u v l1 l2 Huv H IH]; cbn;
    constructor.
  - apply Hf; [now inversion H1|now inversion H2|assumption].
  - apply IH; [now inversion H1|now inversion H2].
Qed.

Lemma Forall_True (l : list R) : Forall (fun _ => True) l.
Proof. induction l; constructor; auto. Qed.

(** X26 — The modules that act on each element by itself are increasing:
    of two samples in the domain of the map, the first below the second at
    every element, [forward] returns two samples in the same order at every
    element. *)
Theorem elementwise_modules_are_increasing (E : Env) (m : Module_)
  (x1 x2 l1 l2 y1 y2 o1 o2 : tensor) :
  acts_on_each_element m ->
  wf x1 -> shape x1 <> [] -> wf x2 -> shape x2 <> [] ->
  in_domain m x1 -> in_domain m x2 ->
  forward E m x1 l1 = Some (y1, o1) ->
  forward E m x2 l2 = Some (y2, o2) ->
  Forall2 Rlt (data x1) (data x2) ->
  Forall2 Rlt (data y1) (data y2).
Proof.
  intros Hm Hx1 Hs1 Hx2 Hs2 Hd1 Hd2 H1 H2 Hlt.
  rewrite (forward_is_sample_map E m x1 l1 y1 o1 Hm Hx1 Hs1 H1).
  rewrite (forward_is_sample_map E m x2 l2 y2 o2 Hm Hx2 Hs2 H2).
  cbn [tmap data].
  destruct m; cbn [acts_on_each_element] in Hm; try contradiction;
    cbn [sample_map in_domain] in *.
  - apply Forall2_Rlt_map with (D := fun _ => True);
      auto using Forall_True.
  - apply Forall2_Rlt_map with (D := fun _ => True);
      auto using Forall_True.
  - apply Forall2_Rlt_map with (D := fun _ => True);
      auto using Forall_True.
    intros u v _ _ H. pose proof (exp_pos logw). nra.
  - apply Forall2_Rlt_map with (D := fun _ => True);
      auto using Forall_True.
    intros u v _ _. apply tanh_increasing.
  - apply Forall2_Rlt_map with (D := fun v => -1 < v < 1);
      [exact atanh_increasing|exact Hd1|exact Hd2|exact Hlt].
  - apply Forall2_Rlt_map with (D := fun _ => True);
      auto using Forall_True.
    intros u v _ _. apply expit_increasing.
  - apply Forall2_Rlt_map with (D := fun v => 0 < v < 1);
      [exact logit_increasing|exact Hd1|exact Hd2|exact Hlt].
  - apply Forall2_Rlt_map with (D := fun _ => True);
      auto using Forall_True.
    intros u v _ _. apply sgnbias_increasing, pow2_ge_0.
Qed.

Lemma elementwise_modules_are_increasing_witness :
  exists y1 o1 y2 o2,
    forward scalar_mode (Tanh_ (Module___init__ None)) sample_1x2 (scalar 0)
    = Some (y1, o1) /\
    forward scalar_mode (Tanh_ (Module___init__ None))
      (mkT [1%nat; 2%nat] [1; 2]) (scalar 0) = Some (y2, o2) /\
    Forall2 Rlt (data sample_1x2) [1; 2] /\
    Forall2 Rlt (data y1) (data y2).
Proof.
  pose proof (eq_refl : forward scalar_mode (Tanh_ (Module___init__ None))
                          sample_1x2 (scalar 0) = Some (_, _)) as H1.
  pose proof (eq_refl : forward scalar_mode (Tanh_ (Module___init__ None))
                          (mkT [1%nat; 2%nat] [1; 2]) (scalar 0)
                        = Some (_, _)) as H2.
  assert (Hlt : Forall2 Rlt (data sample_1x2) [1; 2]).
  { unfold sample_1x2. cbn [data]. repeat constructor; lra. }
  do 4 eexists. split; [exact H1|]. split; [exact H2|].
  split; [exact Hlt|].
  exact (elementwise_modules_are_increasing scalar_mode
           (Tanh_ (Module___init__ None)) sample_1x2
           (mkT [1%nat; 2%nat] [1; 2]) _ _ _ _ _ _ I eq_refl
           ltac:(discriminate) eq_refl ltac:(discriminate) I I H1 H2 Hlt).
Defined.
